(** * bulk_visit_performance: a model of the benchmark harness

    A shallow embedding of [bulk_visit_performance.cpp]: the timing engine
    ([measure], [pause_timing], [resume_timing]), the two visitation
    strategies ([regular_visitor], [bulk_visitor]), the run of one strategy
    ([visit_tester]) and the driver ([visit_test]).

    What the program takes from outside (the clock, the random engine and
    distribution, the container) enters as an oracle or as an interface;
    a concrete instance of each is given after the harness itself. *)

From Stdlib Require Import ZArith Lia Floats Uint63.
From stdpp Require Import base tactics option list numbers strings sorting gmap.

Local Open Scope Z_scope.

(** ** Machine integers *)

(** [int] is 32 bits wide on the platforms the benchmark is built for; a
    value that does not fit is reduced modulo 2^32 into the signed range,
    which is also what the conversion [(int)x] of a [std::size_t] does. *)
Definition int_max : Z := 2 ^ 31 - 1.
Definition int_min : Z := - 2 ^ 31.
Definition wrap_int (z : Z) : Z := (z + 2 ^ 31) mod 2 ^ 32 - 2 ^ 31.

(** The conversion of an [int] to [std::size_t] (64 bits). *)
Definition to_size_t (z : Z) : Z := z mod 2 ^ 64.

(** ** Programs over a state

    [prog S A] is a computation that reads and updates a state [S] and
    either yields an [A] or yields nothing: an access outside an array,
    or a loop that was not given enough steps to finish. *)
Definition prog (S A : Type) : Type := S → option (A * S).

Definition pret {S A} (a : A) : prog S A := λ s, Some (a, s).
Definition pbind {S A B} (c : prog S A) (k : A → prog S B) : prog S B :=
  λ s, match c s with
       | Some (a, s') => k a s'
       | None => None
       end.
Definition pfail {S A} : prog S A := λ _, None.
Definition pget {S} : prog S S := λ s, Some (s, s).
Definition pmodify {S} (f : S → S) : prog S unit := λ s, Some (tt, f s).

Declare Scope prog_scope.
Delimit Scope prog_scope with prog.
Notation "'let*' x ':=' c 'in' k" := (pbind c (λ x, k))
  (at level 10, x pattern, c at level 100, k at level 200) : prog_scope.
Notation "c ';;' k" := (pbind c (λ _, k))
  (at level 100, k at level 200, right associativity) : prog_scope.

(** [n] rounds of a loop body that carries a value. *)
Fixpoint repeat_prog {S A} (n : nat) (body : A → prog S A) (a : A) : prog S A :=
  match n with
  | O => pret a
  | S n' => (let* a' := body a in repeat_prog n' body a')%prog
  end.

(** ** What the harness takes from outside *)

(** The random engine, [boost::detail::splitmix64]: built from a 64-bit
    seed, and called for the next 64-bit value. *)
Class SplitMix64 (G : Type) := {
  splitmix64 : Z → G;
  splitmix64_next : G → Z * G
}.

(** [splitmix64_urng] inherits the constructors of the engine and adds the
    bounds a uniform random bit generator has to declare. *)
Definition splitmix64_urng `{SplitMix64 G} (seed : Z) : G := splitmix64 seed.
Definition urng_min : Z := 0.
Definition urng_max : Z := 2 ^ 64 - 1.

(** [std::uniform_int_distribution<>]: the object holds the two bounds
    [a] and [b] it was built with; calling it on an engine gives an [int]
    and leaves the engine advanced. That the value lies between [a] and
    [b], both included, is the contract of the distribution: the
    statements that need it assume it. *)
Record distribution_type := uniform_int_distribution { dist_a : Z; dist_b : Z }.

Class UniformInt (G : Type) := uniform_int : Z → Z → G → Z * G.

(** The container, as far as the visitors use it: the single-key [visit],
    the [visit] of a range of keys, both returning a [std::size_t] count,
    and the batch size the container declares. The callback the harness
    passes does nothing, and the container is only read. *)
Class BulkVisitMap (M : Type) := {
  bulk_visit_size : nat;
  visit : M → Z → Z;
  visit_range : M → list Z → Z
}.

(** ** The world of one strategy run

    Besides the engine, the world records what the run did to its
    collaborators: the keys the distribution produced, and the calls made
    on the container, both in order. *)
Inductive visit_call :=
  | VisitKey (k : Z)
  | VisitRange (ks : list Z).

Record world (G : Type) := World {
  gen : G;
  drawn : list Z;
  calls : list visit_call
}.
Arguments World {G} _ _ _.
Arguments gen {G} _.
Arguments drawn {G} _.
Arguments calls {G} _.

Section Collaborators.
Context {G M : Type} `{!UniformInt G} `{!BulkVisitMap M}.

(** [dist(gen)] *)
Definition draw (d : distribution_type) : prog (world G) Z :=
  λ w, let '(k, g') := uniform_int (dist_a d) (dist_b d) (gen w) in
       Some (k, World g' (drawn w ++ [k]) (calls w)).

(** [m.visit(k, [](const auto&){})] *)
Definition visit_one (m : M) (k : Z) : prog (world G) Z :=
  λ w, Some (visit m k, World (gen w) (drawn w) (calls w ++ [VisitKey k])).

(** [m.visit(first, last, [](const auto&){})] over the keys [ks] *)
Definition visit_many (m : M) (ks : list Z) : prog (world G) Z :=
  λ w, Some (visit_range m ks,
             World (gen w) (drawn w) (calls w ++ [VisitRange ks])).
End Collaborators.

(** ** The two strategies *)

(** What [visit_tester] asks of its [Visitor] template argument. *)
Record Visitor (G M V : Type) := {
  vmake : M → distribution_type → V;
  vcall : V → prog (world G) V;
  vflush : V → prog (world G) V;
  vres : V → Z
}.
Arguments vmake {G M V} _ _ _.
Arguments vcall {G M V} _ _.
Arguments vflush {G M V} _ _.
Arguments vres {G M V} _ _.

Module regular_visitor.
Record t (M : Type) := mk { res : Z; m : M; dist : distribution_type }.
Arguments mk {M} _ _ _.
Arguments res {M} _.
Arguments m {M} _.
Arguments dist {M} _.

Section methods.
Context {G M : Type} `{!UniformInt G} `{!BulkVisitMap M}.

Definition make (m_ : M) (dist_ : distribution_type) : t M :=
  mk 0 m_ dist_.

(** [operator()]: [res+=(int)m.visit(dist(gen),...)] *)
Definition call (v : t M) : prog (world G) (t M) :=
  (let* k := draw (dist v) in
   let* c := visit_one (m v) k in
   pret (mk (wrap_int (res v + wrap_int c)) (m v) (dist v)))%prog.

Definition flush (v : t M) : prog (world G) (t M) := pret v.

Definition visitor : Visitor G M (t M) :=
  {| vmake := make; vcall := call; vflush := flush; vres := res |}.
End methods.
End regular_visitor.

Module bulk_visitor.
(** [i] is the cursor into [keys]; it is an [int] that stays within
    [0 .. N], so a natural number holds it. *)
Record t (M : Type) := mk {
  res : Z;
  m : M;
  dist : distribution_type;
  i : nat;
  keys : list Z
}.
Arguments mk {M} _ _ _ _ _.
Arguments res {M} _.
Arguments m {M} _.
Arguments dist {M} _.
Arguments i {M} _.
Arguments keys {M} _.

Section methods.
Context {G M : Type} `{!UniformInt G} `{!BulkVisitMap M}.

(** [static constexpr std::size_t N=Map::bulk_visit_size] *)
Definition N : nat := bulk_visit_size (M := M).

(** The array [keys] has no initialiser: its [N] cells hold whatever
    the memory held, here the first [N] values of [junk] (and 0 where
    [junk] is shorter). *)
Definition make (junk : list Z) (m_ : M) (dist_ : distribution_type) : t M :=
  mk 0 m_ dist_ 0 (resize N 0 junk).

(** [res+=(int)m.visit(keys.begin(),keys.begin()+i,...); i=0;] *)
Definition flush (v : t M) : prog (world G) (t M) :=
  (let* c := visit_many (m v) (take (i v) (keys v)) in
   pret (mk (wrap_int (res v + wrap_int c)) (m v) (dist v) 0 (keys v)))%prog.

(** [keys[i++]=dist(gen); if(i==N)flush();]
    A write at or beyond [N] is outside the array: no result. *)
Definition call (v : t M) : prog (world G) (t M) :=
  (let* k := draw (dist v) in
   if decide (i v < N)%nat then
     let v' := mk (res v) (m v) (dist v) (S (i v)) (<[i v := k]> (keys v)) in
     if decide (i v' = N) then flush v' else pret v'
   else pfail)%prog.

Definition visitor (junk : list Z) : Visitor G M (t M) :=
  {| vmake := make junk; vcall := call; vflush := flush; vres := res |}.
End methods.
End bulk_visitor.

(** ** One run of a strategy: [visit_tester] *)

Section visit_tester.
Context {G M V : Type} `{!SplitMix64 G} `{!UniformInt G} `{!BulkVisitMap M}.
Variable Vis : Visitor G M V.

Definition seed : Z := 282472.

(** The body of [operator()], from the construction of the visitor to
    the value returned, as a program on the world. *)
Definition visit_tester_body (m : M) (N : Z) : prog (world G) Z :=
  let visit := vmake Vis m (uniform_int_distribution 0 (wrap_int (2 * N - 1))) in
  (let* visit := repeat_prog (Z.to_nat N) (vcall Vis) visit in
   let* visit := vflush Vis visit in
   pret (to_size_t (vres Vis visit)))%prog.

(** The run, from the freshly seeded engine: the value returned and the
    world the run leaves. *)
Definition visit_tester_run (m : M) (N : Z) : option (Z * world G) :=
  visit_tester_body m N (World (splitmix64_urng seed) [] []).

Definition visit_tester (m : M) (N : Z) : option Z :=
  fst <$> visit_tester_run m N.
End visit_tester.

(** ** The timing engine *)

(** A [double] is a binary64 float; an integer count becomes the nearest
    one. *)
Definition double_of_Z (z : Z) : float :=
  if decide (0 ≤ z) then of_uint63 (Uint63.of_Z z)
  else (- of_uint63 (Uint63.of_Z (- z)))%float.

(** [std::sort] on doubles, by [operator<]. *)
Fixpoint insert_sorted (x : float) (l : list float) : list float :=
  match l with
  | [] => [x]
  | y :: l' => if (x <? y)%float then x :: l else y :: insert_sorted x l'
  end.
Definition sort (l : list float) : list float := foldr insert_sorted [] l.

(** [std::accumulate(first,last,init)] on doubles. *)
Definition accumulate (l : list float) (init : float) : float :=
  foldl PrimFloat.add init l.

Definition num_trials : nat := 10.
Definition min_time_per_trial : Z := 200.   (* milliseconds *)

(** The last three statements of [measure]: sort the trials, then divide
    the sum of [trials.begin()+2 .. trials.end()-2] by [trials.size()-4]. *)
Definition trimmed_mean (trials : list float) : float :=
  let trials := sort trials in
  (accumulate (drop 2 (take (length trials - 2) trials)) 0
   / double_of_Z (Z.of_nat (length trials) - 4))%float.

(** The two global time points, and how many times the clock was read. *)
Record timer := Timer {
  reads : nat;
  measure_start : Z;
  measure_pause : Z
}.

(** What one trial leaves: the run counter, the last reading [t2] minus
    [measure_start], the values stored in the volatile [res], and the
    average stored in [trials[i]]. *)
Record trial (A : Type) := Trial {
  runs : Z;
  elapsed : Z;
  stored : list A;
  average : float
}.
Arguments Trial {A} _ _ _ _.
Arguments runs {A} _.
Arguments elapsed {A} _.
Arguments stored {A} _.
Arguments average {A} _.

Section Timing.
(** [clock n] is what the [n]-th call of [high_resolution_clock::now()]
    returns, in ticks of the clock since its epoch; the clock has
    [ticks_per_second] ticks in a second. *)
Variable clock : nat → Z.
Variable ticks_per_second : Z.

Definition now : prog timer Z :=
  λ t, Some (clock (reads t),
             Timer (S (reads t)) (measure_start t) (measure_pause t)).

Definition pause_timing : prog timer unit :=
  (let* t := now in
   pmodify (λ s, Timer (reads s) (measure_start s) t))%prog.

Definition resume_timing : prog timer unit :=
  (let* t := now in
   pmodify (λ s, Timer (reads s) (measure_start s + (t - measure_pause s))
                       (measure_pause s)))%prog.

(** [t2-measure_start<min_time_per_trial]: a count of ticks against a
    count of milliseconds, compared as times. *)
Definition before_min_time (d : Z) : Prop :=
  d * 1000 < min_time_per_trial * ticks_per_second.

(** [duration_cast<duration<double>>(d).count()] *)
Definition seconds (d : Z) : float :=
  (double_of_Z d / double_of_Z ticks_per_second)%float.

Section measure.
Context {A : Type}.
Variable f : prog timer A.

(** The [do ... while] loop; [fuel] bounds the rounds it may take. *)
Fixpoint trial_loop (fuel : nat) (runs : Z) (stored : list A)
  : prog timer (Z * list A * Z) :=
  match fuel with
  | O => pfail
  | S fuel' =>
      (let* res := f in
       let runs := wrap_int (runs + 1) in
       let stored := stored ++ [res] in
       let* t2 := now in
       let* s := pget in
       if decide (before_min_time (t2 - measure_start s))
       then trial_loop fuel' runs stored
       else pret (runs, stored, t2))%prog
  end.

(** One round of the [for] loop over the trials. *)
Definition one_trial (fuel : nat) : prog timer (trial A) :=
  (let* t := now in
   pmodify (λ s, Timer (reads s) t (measure_pause s));;
   let* r := trial_loop fuel 0 [] in
   let '(runs, stored, t2) := r in
   let* s := pget in
   let d := t2 - measure_start s in
   pret (Trial runs d stored (seconds d / double_of_Z runs)%float))%prog.

Fixpoint run_trials (n fuel : nat) : prog timer (list float) :=
  match n with
  | O => pret []
  | S n' =>
      (let* tr := one_trial fuel in
       let* rest := run_trials n' fuel in
       pret (average tr :: rest))%prog
  end.

Definition measure (fuel : nat) : prog timer float :=
  (let* trials := run_trials num_trials fuel in
   pret (trimmed_mean trials))%prog.
End measure.
End Timing.

(** ** The container under test *)

Module concurrent_flat_map.
(** Modelled from the spec: [boost::concurrent_flat_map<int,int>] is not
    part of this repository. The container is a finite map from keys to
    values together with the number of entries storage was reserved
    for; [insert] adds an entry unless the key is present, [reserve]
    pre-sizes the storage, [visit] of a key counts 0 or 1, [visit] of a
    range counts the keys of the range that are present. With the
    container goes the record of the calls that changed or pre-sized it
    since it was constructed, in the order they were made. *)
Inductive call :=
  | Reserved (n : Z)
  | Inserted (k v : Z).

Record t := mk { table : gmap Z Z; reserved : Z; history : list call }.

Definition empty : t := mk ∅ 0 [].

Definition reserve (n : Z) (c : t) : t :=
  mk (table c) (reserved c `max` n) (history c ++ [Reserved n]).

Definition insert (kv : Z * Z) (c : t) : t :=
  match table c !! kv.1 with
  | Some _ =>
      mk (table c) (reserved c) (history c ++ [Inserted kv.1 kv.2])
  | None =>
      mk (<[kv.1 := kv.2]> (table c))
         (reserved c `max` (Z.of_nat (size (table c)) + 1))
         (history c ++ [Inserted kv.1 kv.2])
  end.

Definition visit (c : t) (k : Z) : Z :=
  match table c !! k with
  | Some _ => 1
  | None => 0
  end.

Definition visit_range (c : t) (ks : list Z) : Z :=
  foldr (λ k n, visit c k + n) 0 ks.

(** The batch size the container declares. *)
Definition bulk_visit_size : nat := 16.
End concurrent_flat_map.

(** The container as a [Map] argument of the visitors, for a batch size
    [n], and for the batch size it declares. *)
Definition flat_map_batch (n : nat) : BulkVisitMap concurrent_flat_map.t := {|
  bulk_visit_size := n;
  visit := concurrent_flat_map.visit;
  visit_range := concurrent_flat_map.visit_range
|}.

#[export] Instance concurrent_flat_map_visit : BulkVisitMap concurrent_flat_map.t :=
  flat_map_batch concurrent_flat_map.bulk_visit_size.

(** ** The driver: [visit_test] and [main] *)

(** The sizes the driver runs through, in the order it takes them. *)
Definition sizes : list Z := [3000; 25000; 600000; 10000000].

(** The first three statements of the loop body: a new container, with
    storage reserved for [N] entries, and the entries [{i,i}] inserted for
    [i] from 0 up to [N]. *)
Definition dataset (N : Z) : concurrent_flat_map.t :=
  foldl (λ m i, concurrent_flat_map.insert (i, i) m)
        (concurrent_flat_map.reserve (to_size_t N) concurrent_flat_map.empty)
        (seqZ 0 N).

(** What the driver writes to [std::cout]. *)
Inductive line :=
  | Title
  | Header (name1 name2 : string)
  | Row (N : Z) (throughput1 throughput2 : float).

Fixpoint for_each {S A B} (body : A → prog S B) (l : list A) : prog S (list B) :=
  match l with
  | [] => pret []
  | a :: l' =>
      (let* b := body a in
       let* bs := for_each body l' in
       pret (b :: bs))%prog
  end.

(** The driver starts to time a strategy: [which] says whether it is the
    first or the second, [m] and [N] are what the timed operation is bound
    to. *)
Inductive driver_event :=
  | Timed (which : nat) (m : concurrent_flat_map.t) (N : Z).

(** The state of the driver: the timer that [measure] and the timing
    functions share, and the record of what the driver has timed. *)
Record driver := Driver {
  clock_state : timer;
  events : list driver_event
}.

Definition log_event (e : driver_event) : prog driver unit :=
  λ d, Some (tt, Driver (clock_state d) (events d ++ [e])).

(** A program on the timer, run by the driver. *)
Definition on_timer {A} (c : prog timer A) : prog driver A :=
  λ d, match c (clock_state d) with
       | Some (a, t) => Some (a, Driver t (events d))
       | None => None
       end.

Section Driver.
Context {G V1 V2 : Type} `{!SplitMix64 G} `{!UniformInt G}.
Variable clock : nat → Z.
Variable ticks_per_second : Z.
Variable Visitor1 : Visitor G concurrent_flat_map.t V1.
Variable Visitor2 : Visitor G concurrent_flat_map.t V2.

(** [boost::bind(visit_tester<Visitor>(),boost::cref(m),N)]: the
    operation that [measure] times. *)
Definition bound_tester {V} (Vis : Visitor G concurrent_flat_map.t V)
    (m : concurrent_flat_map.t) (N : Z) : prog timer Z :=
  λ t, match visit_tester Vis m N with
       | Some r => Some (r, t)
       | None => None
       end.

(** [measure(boost::bind(visit_tester<Visitor>(),boost::cref(m),N))]: the
    driver hands [measure] the operation bound to [m] and [N]; [which]
    says whether it is the first or the second strategy. *)
Definition measure_bound {V} (which : nat)
    (Vis : Visitor G concurrent_flat_map.t V)
    (m : concurrent_flat_map.t) (N : Z) (fuel : nat) : prog driver float :=
  (log_event (Timed which m N);;
   on_timer (measure clock ticks_per_second (bound_tester Vis m N) fuel))%prog.

Definition visit_test_size (fuel : nat) (N : Z) : prog driver line :=
  let m := dataset N in
  (let* t := measure_bound 1 Visitor1 m N fuel in
   let throughput1 := (double_of_Z N / t / 1e6)%float in
   let* t := measure_bound 2 Visitor2 m N fuel in
   pret (Row N throughput1 (double_of_Z N / t / 1e6)%float))%prog.

Definition visit_test (fuel : nat) (name1 name2 : string)
  : prog driver (list line) :=
  (let* rows := for_each (visit_test_size fuel) sizes in
   pret (Title :: Header name1 name2 :: rows))%prog.
End Driver.

Definition main {G} `{!SplitMix64 G} `{!UniformInt G}
    (clock : nat → Z) (ticks_per_second : Z) (junk : list Z) (fuel : nat)
  : prog driver (list line) :=
  visit_test clock ticks_per_second
    regular_visitor.visitor (bulk_visitor.visitor junk) fuel "regular" "bulk".

(** ** An engine and a distribution *)

Module splitmix64_engine.
(** Modelled from the spec: the engine is an external collaborator, any
    uniform random bit generator with a fixed seed. This one is the
    SplitMix64 generator the source names: a state of one 64-bit word,
    advanced by a constant and mixed by two rounds of shift, exclusive or
    and multiplication. *)
Definition u64 (z : Z) : Z := z mod 2 ^ 64.

Definition next (x : Z) : Z * Z :=
  let x := u64 (x + 0x9e3779b97f4a7c15) in
  let z := x in
  let z := u64 (Z.lxor z (Z.shiftr z 30) * 0xbf58476d1ce4e5b9) in
  let z := u64 (Z.lxor z (Z.shiftr z 27) * 0x94d049bb133111eb) in
  (Z.lxor z (Z.shiftr z 31), x).
End splitmix64_engine.

#[export] Instance splitmix64_engine_impl : SplitMix64 Z := {|
  splitmix64 := splitmix64_engine.u64;
  splitmix64_next := splitmix64_engine.next
|}.

Module downscaling.
(** Modelled from the spec: the distribution is an external
    collaborator, a uniform integer distribution between two bounds. This
    one scales a 64-bit value of the engine into [0 .. range-1] through
    the high word of its 128-bit product with [range], where [range] is
    the number of values from [a] to [b]; a product whose low word falls
    under the threshold is drawn again, at most [rounds] times. *)
Definition rounds : nat := 64.

Fixpoint redraw (n : nat) (range threshold product : Z) (g : Z) : Z * Z :=
  match n with
  | O => (product, g)
  | S n' =>
      if decide (product mod 2 ^ 64 < threshold) then
        let '(r, g') := splitmix64_engine.next g in
        redraw n' range threshold (r * range) g'
      else (product, g)
  end.

Definition below (range : Z) (g : Z) : Z * Z :=
  let '(r, g1) := splitmix64_engine.next g in
  let product := r * range in
  let '(product, g2) :=
    if decide (product mod 2 ^ 64 < range)
    then redraw rounds range ((2 ^ 64 - range) mod range) product g1
    else (product, g1) in
  (product / 2 ^ 64, g2).

Definition draw (a b : Z) (g : Z) : Z * Z :=
  let '(r, g') := below (b - a + 1) g in (a + r, g').
End downscaling.

#[export] Instance downscaling_impl : UniformInt Z := downscaling.draw.

(** ** Functions the statements are written with *)

(** The keys [n] successive calls of the distribution give, and the engine
    they leave. *)
Fixpoint draw_keys `{!UniformInt G} (a b : Z) (n : nat) (g : G) : list Z * G :=
  match n with
  | O => ([], g)
  | S n' =>
      let '(k, g1) := uniform_int a b g in
      let '(ks, g2) := draw_keys a b n' g1 in
      (k :: ks, g2)
  end.

Definition sumZ (l : list Z) : Z := foldr Z.add 0 l.

(** The keys a logged call passed to the container. *)
Definition call_keys (c : visit_call) : list Z :=
  match c with
  | VisitKey k => [k]
  | VisitRange ks => ks
  end.

(** The [j]-th block of [C] keys of [ks]. *)
Definition block (C : nat) (ks : list Z) (j : nat) : list Z :=
  take C (drop (j * C) ks).

(** The sequence of operations a client may apply to a visitor. *)
Inductive visitor_op := OpCall | OpFlush.

Definition apply_op {G M V} (Vis : Visitor G M V) (o : visitor_op) (v : V)
  : prog (world G) V :=
  match o with
  | OpCall => vcall Vis v
  | OpFlush => vflush Vis v
  end.

Fixpoint apply_ops {G M V} (Vis : Visitor G M V) (os : list visitor_op) (v : V)
  : prog (world G) V :=
  match os with
  | [] => pret v
  | o :: os' => (let* v' := apply_op Vis o v in apply_ops Vis os' v')%prog
  end.

(** What the batched strategy does with the keys [ks] when [p] is pending
    in its buffer of capacity [C]: the full batches it hands over, in
    order, and what is left pending. *)
Fixpoint feed (C : nat) (p ks : list Z) : list (list Z) * list Z :=
  match ks with
  | [] => ([], p)
  | k :: ks' =>
      if decide (length (p ++ [k]) = C) then
        let '(bs, q) := feed C [] ks' in ((p ++ [k]) :: bs, q)
      else feed C (p ++ [k]) ks'
  end.

(** A batched visitor whose cursor is inside its array of [N] cells, and
    the keys it holds back. *)
Definition bulk_wf {M} `{!BulkVisitMap M} (v : bulk_visitor.t M) : Prop :=
  (bulk_visitor.i v < bulk_visitor.N (M := M))%nat
  ∧ length (bulk_visitor.keys v) = bulk_visitor.N (M := M).

Definition pending {M} (v : bulk_visitor.t M) : list Z :=
  take (bulk_visitor.i v) (bulk_visitor.keys v).

(** [n] calls of a visitor and the final [flush], as [visit_tester] makes
    them. *)
Definition drive {G M V} (Vis : Visitor G M V) (n : nat) (v : V)
  : prog (world G) V :=
  (let* v' := repeat_prog n (vcall Vis) v in vflush Vis v')%prog.

(** The keys a run of [visit_tester] for the size [N] is to draw. *)
Definition key_sequence `{!SplitMix64 G} `{!UniformInt G} (N : Z) : list Z :=
  (draw_keys 0 (wrap_int (2 * N - 1)) (Z.to_nat N) (splitmix64_urng seed)).1.

(** The accumulated count of a visitor never goes down along [n] calls
    and the final [flush], and ends between 0 and [n]. *)
Definition res_nondecreasing {G M V} (Vis : Visitor G M V)
    (v0 : V) (w0 : world G) (n : nat) : Prop :=
  (∀ j, (j < n)%nat →
     ∃ v w v' w', repeat_prog j (vcall Vis) v0 w0 = Some (v, w)
       ∧ vcall Vis v w = Some (v', w')
       ∧ vres Vis v ≤ vres Vis v')
  ∧ (∃ v w v' w', repeat_prog n (vcall Vis) v0 w0 = Some (v, w)
       ∧ vflush Vis v w = Some (v', w')
       ∧ vres Vis v ≤ vres Vis v'
       ∧ 0 ≤ vres Vis v' ≤ Z.of_nat n).

(** Trial averages are positive: a positive duration over a positive
    number of runs. *)
Definition positive_double (x : float) : Prop := (0 <? x)%float = true.

Definition double_le (x y : float) : Prop := (x <=? y)%float = true.

(** A clock with a nanosecond tick: its [n]-th reading is [n] times 10 ms
    for [n < 19], and 200 ms from then on. A candidate that does
    nothing. *)
Definition stepping_clock (n : nat) : Z :=
  if decide (n < 19)%nat then Z.of_nat n * 10000000 else 200000000.

Definition nanoseconds : Z := 1000000000.

Definition idle : prog timer unit := pret tt.

(** ** Machine integers: lemmas *)

Lemma wrap_int_small z : int_min ≤ z ≤ int_max → wrap_int z = z.
Proof.
  unfold int_min, int_max, wrap_int. intros Hz.
  rewrite Z.mod_small; lia.
Qed.

Lemma wrap_int_add_r a b : wrap_int (a + wrap_int b) = wrap_int (a + b).
Proof.
  unfold wrap_int. f_equal.
  replace (a + ((b + 2 ^ 31) mod 2 ^ 32 - 2 ^ 31) + 2 ^ 31)
    with (a + (b + 2 ^ 31) mod 2 ^ 32) by lia.
  rewrite Zplus_mod_idemp_r. f_equal. lia.
Qed.

Lemma wrap_int_add_l a b : wrap_int (wrap_int a + b) = wrap_int (a + b).
Proof. rewrite (Z.add_comm (wrap_int a)), wrap_int_add_r. f_equal. lia. Qed.

Lemma wrap_int_idemp a : wrap_int (wrap_int a) = wrap_int a.
Proof.
  replace (wrap_int a) with (0 + wrap_int a) at 1 by lia.
  now rewrite wrap_int_add_r.
Qed.

Lemma sumZ_cons x l : sumZ (x :: l) = x + sumZ l.
Proof. reflexivity. Qed.

Lemma sumZ_app l1 l2 : sumZ (l1 ++ l2) = sumZ l1 + sumZ l2.
Proof.
  induction l1 as [|x l1 IH]; [reflexivity|].
  rewrite <- app_comm_cons, !sumZ_cons, IH. lia.
Qed.

(** A fold of [res+=(int)c] is the wrapped sum. *)
Lemma foldl_wrap_sum {A} (f : A → Z) (l : list A) (r : Z) :
  wrap_int (foldl (λ r x, wrap_int (r + wrap_int (f x))) r l)
  = wrap_int (r + sumZ (f <$> l)).
Proof.
  revert r. induction l as [|x l IH]; intros r.
  - cbn. f_equal. lia.
  - cbn [foldl]. rewrite fmap_cons, sumZ_cons, IH, wrap_int_add_l.
    replace (r + wrap_int (f x) + sumZ (f <$> l))
      with (r + sumZ (f <$> l) + wrap_int (f x)) by lia.
    rewrite wrap_int_add_r. f_equal. lia.
Qed.

(** Without overflow the fold is the sum itself. *)
Lemma foldl_wrap_exact {A} (f : A → Z) (bound : A → Z) (l : list A) (r : Z) :
  Forall (λ x, 0 ≤ f x ≤ bound x) l →
  0 ≤ r → r + sumZ (bound <$> l) ≤ int_max →
  foldl (λ r x, wrap_int (r + wrap_int (f x))) r l = r + sumZ (f <$> l)
  ∧ sumZ (f <$> l) ≤ sumZ (bound <$> l) ∧ 0 ≤ sumZ (f <$> l).
Proof.
  revert r. induction l as [|x l IH]; intros r Hall Hr Hle.
  - cbn. lia.
  - inversion Hall as [|? ? Hx Hl]; subst.
    rewrite fmap_cons, sumZ_cons in Hle.
    assert (Hb : 0 ≤ sumZ (bound <$> l)).
    { clear -Hl. induction Hl; [cbn; lia|]. rewrite fmap_cons, sumZ_cons. lia. }
    cbn [foldl]. rewrite !fmap_cons, !sumZ_cons.
    assert (Hi : int_min ≤ 0) by (unfold int_min; lia).
    rewrite (wrap_int_small (f x)) by lia.
    rewrite (wrap_int_small (r + f x)) by lia.
    destruct (IH (r + f x) Hl) as (-> & ? & ?); lia.
Qed.

Lemma draw_keys_length `{!UniformInt G} a b n (g : G) :
  length (draw_keys a b n g).1 = n.
Proof.
  revert g. induction n as [|n IH]; intros g; simpl; [done|].
  destruct (uniform_int a b g) as [k g1].
  specialize (IH g1). destruct (draw_keys a b n g1) as [ks g2].
  simpl in *. lia.
Qed.

Lemma draw_keys_range `{!UniformInt G} a b n (g : G) :
  (∀ g, a ≤ (uniform_int a b g).1 ≤ b) →
  Forall (λ k, a ≤ k ≤ b) (draw_keys a b n g).1.
Proof.
  intros Hr. revert g. induction n as [|n IH]; intros g; simpl; [constructor|].
  specialize (Hr g). destruct (uniform_int a b g) as [k g1].
  specialize (IH g1). destruct (draw_keys a b n g1) as [ks g2].
  simpl in *. constructor; assumption.
Qed.

(** ** The pure account of batching: [feed] *)

Lemma feed_concat C p ks :
  concat (feed C p ks).1 ++ (feed C p ks).2 = p ++ ks.
Proof.
  revert p. induction ks as [|k ks IH]; intros p; simpl.
  - by rewrite app_nil_r.
  - case_decide as Hlen.
    + specialize (IH []). destruct (feed C [] ks) as [bs q]. simpl in *.
      rewrite <- !app_assoc. simpl. by rewrite IH.
    + rewrite IH. by rewrite <- app_assoc.
Qed.

(** Fewer keys than the buffer has room for: nothing is handed over. *)
Lemma feed_short C p ks :
  (length p + length ks < C)%nat → feed C p ks = ([], p ++ ks).
Proof.
  revert p. induction ks as [|k ks IH]; intros p Hlen; simpl in *.
  - by rewrite app_nil_r.
  - rewrite decide_False by (rewrite length_app; simpl; lia).
    rewrite IH by (rewrite length_app; simpl; lia).
    by rewrite <- app_assoc.
Qed.

(** Exactly enough keys to fill the buffer: one batch, and the rest is fed
    to the empty buffer. *)
Lemma feed_fill C p ks1 ks2 :
  (length p + length ks1 = C)%nat → ks1 ≠ [] →
  feed C p (ks1 ++ ks2) = ((p ++ ks1) :: (feed C [] ks2).1, (feed C [] ks2).2).
Proof.
  revert p. induction ks1 as [|k ks1 IH]; intros p Hlen Hne; [done|].
  simpl in *. destruct ks1 as [|k' ks1].
  - simpl in *. rewrite decide_True by (rewrite length_app; simpl; lia).
    by destruct (feed C [] ks2).
  - rewrite decide_False by (rewrite length_app; simpl in *; lia).
    rewrite IH; [|rewrite length_app; simpl in *; lia|done].
    by rewrite <- app_assoc.
Qed.

(** [k] full blocks and [r] keys more: the batches are the blocks, the
    pending keys are the [r] last ones. *)
Lemma feed_blocks C k (ks : list Z) :
  (0 < C)%nat → (k * C ≤ length ks)%nat → (length ks < k * C + C)%nat →
  feed C [] ks = (block C ks <$> seq 0 k, drop (k * C) ks).
Proof.
  intros HC. revert ks. induction k as [|k IH]; intros ks Hlo Hhi.
  - simpl in *. rewrite feed_short by (simpl; lia). done.
  - rewrite <- (take_drop C ks) at 1.
    rewrite feed_fill; cycle 1.
    { rewrite length_take. simpl. lia. }
    { intros Hnil. apply (f_equal length) in Hnil.
      rewrite length_take in Hnil. simpl in Hnil. lia. }
    rewrite IH; cycle 1.
    { rewrite length_drop. lia. }
    { rewrite length_drop. lia. }
    simpl. f_equal.
    + f_equal.
      rewrite <- fmap_S_seq, <- list_fmap_compose.
      apply list_fmap_ext. intros _ j _. unfold block, compose.
      rewrite drop_drop; f_equal; f_equal; lia.
    + rewrite drop_drop. f_equal; lia.
Qed.

(** ** The strategies, step by step *)

Section Strategies.
Context {G M : Type} `{!UniformInt G} `{!BulkVisitMap M}.

Local Abbreviation rv := (regular_visitor.t M).
Local Abbreviation bv := (bulk_visitor.t M).
Local Abbreviation C := (bulk_visitor.N (M := M)).

Lemma regular_call_eq (v : rv) (w : world G) :
  regular_visitor.call v w
  = let '(k, g') := uniform_int (dist_a (regular_visitor.dist v))
                                 (dist_b (regular_visitor.dist v)) (gen w) in
    Some (regular_visitor.mk
            (wrap_int (regular_visitor.res v
                       + wrap_int (visit (regular_visitor.m v) k)))
            (regular_visitor.m v) (regular_visitor.dist v),
          World g' (drawn w ++ [k]) (calls w ++ [VisitKey k])).
Proof.
  unfold regular_visitor.call, pbind, draw, visit_one, pret.
  by destruct (uniform_int _ _ _).
Qed.

(** [n] calls of the single-key strategy. *)
Lemma regular_repeat n (v : rv) (w : world G) :
  repeat_prog n regular_visitor.call v w
  = let '(ks, g') := draw_keys (dist_a (regular_visitor.dist v))
                                (dist_b (regular_visitor.dist v)) n (gen w) in
    Some (regular_visitor.mk
            (foldl (λ r k, wrap_int (r + wrap_int (visit (regular_visitor.m v) k)))
                   (regular_visitor.res v) ks)
            (regular_visitor.m v) (regular_visitor.dist v),
          World g' (drawn w ++ ks) (calls w ++ (VisitKey <$> ks))).
Proof.
  revert v w. induction n as [|n IH]; intros v w.
  - simpl. unfold pret. rewrite !app_nil_r. by destruct v, w.
  - cbn [repeat_prog draw_keys]. unfold pbind at 1.
    rewrite regular_call_eq.
    destruct (uniform_int _ _ _) as [k g1]. rewrite IH. simpl.
    destruct (draw_keys _ _ n g1) as [ks g2]. simpl.
    by rewrite <- !app_assoc.
Qed.

Lemma pending_length v : bulk_wf v → length (pending v) = bulk_visitor.i v.
Proof. intros [Hi Hk]. unfold pending. rewrite length_take. lia. Qed.

Lemma bulk_make_wf junk m d : (0 < C)%nat → bulk_wf (bulk_visitor.make junk m d).
Proof.
  intros HC. split; simpl; [done|]. apply length_resize.
Qed.

Lemma bulk_flush_eq (v : bv) (w : world G) :
  bulk_visitor.flush v w
  = Some (bulk_visitor.mk
            (wrap_int (bulk_visitor.res v
                       + wrap_int (visit_range (bulk_visitor.m v) (pending v))))
            (bulk_visitor.m v) (bulk_visitor.dist v) 0 (bulk_visitor.keys v),
          World (gen w) (drawn w) (calls w ++ [VisitRange (pending v)])).
Proof. reflexivity. Qed.

Lemma pending_insert (v : bv) k :
  bulk_wf v →
  take (S (bulk_visitor.i v)) (<[bulk_visitor.i v := k]> (bulk_visitor.keys v))
  = pending v ++ [k].
Proof.
  intros [Hi Hk]. unfold pending.
  erewrite take_S_r; [|apply list_lookup_insert_eq; lia].
  by rewrite take_insert_ge by lia.
Qed.

(** One call of the batched strategy: the key goes into the cell under
    the cursor; the buffer is handed over when that was its last cell. *)
Lemma bulk_call_eq (v : bv) (w : world G) :
  bulk_wf v →
  bulk_visitor.call v w
  = let '(k, g') := uniform_int (dist_a (bulk_visitor.dist v))
                                 (dist_b (bulk_visitor.dist v)) (gen w) in
    let keys' := <[bulk_visitor.i v := k]> (bulk_visitor.keys v) in
    let p := pending v ++ [k] in
    if decide (length p = C) then
      Some (bulk_visitor.mk
              (wrap_int (bulk_visitor.res v
                         + wrap_int (visit_range (bulk_visitor.m v) p)))
              (bulk_visitor.m v) (bulk_visitor.dist v) 0 keys',
            World g' (drawn w ++ [k]) (calls w ++ [VisitRange p]))
    else
      Some (bulk_visitor.mk (bulk_visitor.res v) (bulk_visitor.m v)
              (bulk_visitor.dist v) (S (bulk_visitor.i v)) keys',
            World g' (drawn w ++ [k]) (calls w)).
Proof.
  intros Hwf. pose proof Hwf as [Hi Hk].
  unfold bulk_visitor.call, pbind, draw.
  destruct (uniform_int _ _ _) as [k g'].
  rewrite decide_True by done. cbv zeta.
  assert (Hl : length (pending v ++ [k]) = S (bulk_visitor.i v)).
  { rewrite length_app, pending_length by done. simpl. lia. }
  cbn [bulk_visitor.i]. rewrite Hl.
  destruct (decide (S (bulk_visitor.i v) = C)) as [Heq|Hne]; [|done].
  rewrite bulk_flush_eq. unfold pending at 1 2.
  cbn [bulk_visitor.i bulk_visitor.keys bulk_visitor.m bulk_visitor.dist
       bulk_visitor.res gen drawn calls].
  by rewrite pending_insert.
Qed.

(** [n] calls of the batched strategy, in terms of [feed]. *)
Lemma bulk_repeat n (v : bv) (w : world G) :
  bulk_wf v →
  let dk := draw_keys (dist_a (bulk_visitor.dist v))
                      (dist_b (bulk_visitor.dist v)) n (gen w) in
  let fd := feed C (pending v) dk.1 in
  ∃ v', repeat_prog n bulk_visitor.call v w
        = Some (v', World dk.2 (drawn w ++ dk.1)
                          (calls w ++ (VisitRange <$> fd.1)))
    ∧ bulk_wf v'
    ∧ pending v' = fd.2
    ∧ bulk_visitor.m v' = bulk_visitor.m v
    ∧ bulk_visitor.dist v' = bulk_visitor.dist v
    ∧ bulk_visitor.res v'
      = foldl (λ r b, wrap_int (r + wrap_int (visit_range (bulk_visitor.m v) b)))
              (bulk_visitor.res v) fd.1.
Proof.
  revert v w. induction n as [|n IH]; intros v w Hwf.
  - simpl. exists v. unfold pret. rewrite !app_nil_r. by destruct w.
  - cbn [repeat_prog draw_keys]. unfold pbind at 1.
    rewrite bulk_call_eq by done.
    destruct (uniform_int _ _ _) as [k g1]. cbv zeta.
    pose proof Hwf as [Hi Hk].
    assert (Hl : length (pending v ++ [k]) = S (bulk_visitor.i v)).
    { rewrite length_app, pending_length by done. simpl. lia. }
    destruct (decide (length (pending v ++ [k]) = C)) as [Heq|Hne].
    + match goal with |- context [repeat_prog n _ ?v1 ?w1] =>
        destruct (IH v1 w1) as (v' & Hrun & Hwf' & Hp' & Hm' & Hd' & Hr')
      end.
      { split; cbn [bulk_visitor.i bulk_visitor.keys]; [lia|by rewrite length_insert]. }
      exists v'. rewrite Hrun.
      cbn [bulk_visitor.dist bulk_visitor.m bulk_visitor.res gen drawn calls] in *.
      destruct (draw_keys _ _ n g1) as [ks g2].
      cbn [fst snd feed] in *. rewrite decide_True by done.
      assert (Hpe : ∀ r keys', pending (bulk_visitor.mk r (bulk_visitor.m v)
                    (bulk_visitor.dist v) 0 keys') = []) by done.
      rewrite Hpe in *.
      destruct (feed C [] ks) as [bs q]. cbn [fst snd fmap list_fmap foldl] in *.
      rewrite <- !app_assoc. split_and!; done.
    + match goal with |- context [repeat_prog n _ ?v1 ?w1] =>
        destruct (IH v1 w1) as (v' & Hrun & Hwf' & Hp' & Hm' & Hd' & Hr')
      end.
      { split; cbn [bulk_visitor.i bulk_visitor.keys]; [lia|by rewrite length_insert]. }
      exists v'. rewrite Hrun.
      cbn [bulk_visitor.dist bulk_visitor.m bulk_visitor.res gen drawn calls] in *.
      destruct (draw_keys _ _ n g1) as [ks g2].
      cbn [fst snd feed] in *. rewrite decide_False by done.
      assert (Hpe : pending (bulk_visitor.mk (bulk_visitor.res v) (bulk_visitor.m v)
                    (bulk_visitor.dist v) (S (bulk_visitor.i v))
                    (<[bulk_visitor.i v:=k]> (bulk_visitor.keys v)))
                    = pending v ++ [k]).
      { unfold pending at 1. cbn [bulk_visitor.i bulk_visitor.keys].
        by apply pending_insert. }
      rewrite Hpe in *.
      rewrite <- !app_assoc. split_and!; done.
Qed.
End Strategies.

(** ** Runs of [visit_tester] *)

Lemma foldl_wrap_fixed {A} (f : A → Z) (l : list A) (r : Z) :
  wrap_int r = r →
  wrap_int (foldl (λ r x, wrap_int (r + wrap_int (f x))) r l)
  = foldl (λ r x, wrap_int (r + wrap_int (f x))) r l.
Proof.
  revert r. induction l as [|x l IH]; intros r Hr; [done|].
  cbn [foldl]. apply IH, wrap_int_idemp.
Qed.

Lemma sumZ_concat {A} (f : A → Z) (ls : list (list A)) :
  sumZ ((λ l, sumZ (f <$> l)) <$> ls) = sumZ (f <$> concat ls).
Proof.
  induction ls as [|l ls IH]; [done|].
  rewrite fmap_cons, sumZ_cons. cbn [concat]. rewrite fmap_app, sumZ_app. lia.
Qed.

Lemma sumZ_length_concat {A} (ls : list (list A)) :
  sumZ ((λ l, Z.of_nat (length l)) <$> ls) = Z.of_nat (length (concat ls)).
Proof.
  induction ls as [|l ls IH]; [done|].
  rewrite fmap_cons, sumZ_cons. cbn [concat]. rewrite length_app. lia.
Qed.

Section Runs.
Context {G M : Type} `{!SplitMix64 G} `{!UniformInt G} `{!BulkVisitMap M}.

Local Abbreviation C := (bulk_visitor.N (M := M)).

(** The run of the single-key strategy. *)
Lemma regular_run (m : M) (N : Z) :
  let ks := key_sequence N in
  ∃ g', visit_tester_run regular_visitor.visitor m N
        = Some (to_size_t (wrap_int (sumZ (visit m <$> ks))),
                World g' ks (VisitKey <$> ks)).
Proof.
  unfold visit_tester_run, visit_tester_body, key_sequence, pbind.
  cbn [vcall vflush vmake vres regular_visitor.visitor].
  rewrite regular_repeat.
  cbn [regular_visitor.make regular_visitor.dist regular_visitor.m
       regular_visitor.res dist_a dist_b gen drawn calls].
  destruct (draw_keys _ _ _ _) as [ks g']. cbn [fst].
  exists g'. unfold regular_visitor.flush, pret.
  cbn [regular_visitor.res app]. do 3 f_equal.
  rewrite <- foldl_wrap_fixed by done. by rewrite foldl_wrap_sum.
Qed.

(** The run of the batched strategy: the batches [feed] gives, then the
    call of the final [flush] on what is pending. *)
Lemma bulk_drive junk n (v : bulk_visitor.t M) (w : world G) :
  bulk_wf v →
  let dk := draw_keys (dist_a (bulk_visitor.dist v))
                      (dist_b (bulk_visitor.dist v)) n (gen w) in
  let fd := feed C (pending v) dk.1 in
  ∃ v', drive (bulk_visitor.visitor (G := G) junk) n v w
        = Some (v', World dk.2 (drawn w ++ dk.1)
                      (calls w ++ (VisitRange <$> fd.1) ++ [VisitRange fd.2]))
    ∧ bulk_wf v' ∧ bulk_visitor.i v' = 0%nat
    ∧ bulk_visitor.res v'
      = wrap_int (foldl (λ r b, wrap_int (r + wrap_int (visit_range (bulk_visitor.m v) b)))
                        (bulk_visitor.res v) fd.1
                  + wrap_int (visit_range (bulk_visitor.m v) fd.2)).
Proof.
  intros Hwf dk fd.
  destruct (bulk_repeat n v w Hwf) as (v1 & Hrun & Hwf1 & Hp1 & Hm1 & Hd1 & Hr1).
  unfold drive, pbind. cbn [vcall vflush bulk_visitor.visitor].
  rewrite Hrun, bulk_flush_eq. cbn [gen drawn calls].
  rewrite Hp1, Hm1, Hr1, <- app_assoc.
  eexists. split; [reflexivity|]. split_and!; [|done|done].
  destruct Hwf1 as [H1 H2].
  split; cbn [bulk_visitor.i bulk_visitor.keys]; [lia|done].
Qed.

Lemma bulk_run junk (m : M) (N : Z) :
  (0 < C)%nat →
  let ks := key_sequence N in
  let fd := feed C [] ks in
  ∃ g', visit_tester_run (bulk_visitor.visitor junk) m N
        = Some (to_size_t
                  (wrap_int (foldl (λ r b, wrap_int (r + wrap_int (visit_range m b))) 0 fd.1
                             + wrap_int (visit_range m fd.2))),
                World g' ks ((VisitRange <$> fd.1) ++ [VisitRange fd.2])).
Proof.
  intros HC ks fd.
  unfold visit_tester_run, visit_tester_body.
  cbn [vmake bulk_visitor.visitor].
  set (v0 := bulk_visitor.make junk m _).
  set (w0 := World _ _ _).
  assert (Hwf : bulk_wf v0) by (by apply bulk_make_wf).
  destruct (bulk_drive junk (Z.to_nat N) v0 w0 Hwf) as (v' & Hrun & Hwf' & Hi' & Hr').
  unfold drive in Hrun. cbn [vcall vflush bulk_visitor.visitor] in Hrun.
  unfold pbind in *. cbn [vcall vflush vres bulk_visitor.visitor].
  destruct (repeat_prog _ _ _ _) as [[v1 w1]|]; [|done].
  rewrite Hrun. unfold pret. rewrite Hr'. eexists. reflexivity.
Qed.
End Runs.

Lemma block_lengths C (ks : list Z) k :
  (k * C ≤ length ks)%nat →
  (length ∘ call_keys ∘ VisitRange ∘ block C ks) <$> seq 0 k = replicate k C.
Proof.
  induction k as [|k IH]; intros Hk; [done|].
  rewrite seq_S, fmap_app, IH, replicate_S_end by lia. f_equal.
  cbn. unfold block. rewrite length_take, length_drop. do 2 f_equal. lia.
Qed.

(** ** The strategies compared *)

Section Equivalence.
Context {G M : Type} `{!SplitMix64 G} `{!UniformInt G} `{!BulkVisitMap M}.

Local Abbreviation C := (bulk_visitor.N (M := M)).

(** C1. Under the contract of the container that the visit of a range
    counts what the visits of its keys count, and for a positive batch
    size, the run of the single-key strategy and the run of the batched
    strategy on the same map and the same size [N >= 1] both return, and
    return the same count. *)
Theorem hit_count_equivalence junk (m : M) (N : Z) :
  (∀ (m : M) ks, visit_range m ks = sumZ (visit m <$> ks)) →
  (0 < C)%nat →
  1 ≤ N →
  ∃ r, visit_tester (G := G) regular_visitor.visitor m N = Some r
     ∧ visit_tester (G := G) (bulk_visitor.visitor junk) m N = Some r.
Proof.
  intros Hsum HC HN. unfold visit_tester.
  destruct (regular_run (G := G) m N) as (g1 & ->).
  destruct (bulk_run (G := G) junk m N HC) as (g2 & ->).
  eexists. split; [reflexivity|]. cbn [fmap option_fmap option_map fst].
  do 2 f_equal.
  rewrite wrap_int_add_r, <- wrap_int_add_l, foldl_wrap_sum, wrap_int_add_l.
  f_equal. rewrite Z.add_0_l.
  rewrite (list_fmap_ext (visit_range m) (λ l, sumZ (visit m <$> l)))
    by (intros; apply Hsum).
  rewrite sumZ_concat, Hsum, <- sumZ_app, <- fmap_app, feed_concat.
  done.
Qed.

(** C5. Every run of [visit_tester] seeds its engine itself, with the
    same seed: whatever the strategy, the map and the uninitialised
    buffer, the run for the size [N] returns and has drawn the keys of
    [key_sequence N], in that order. Two runs for the same [N], of one
    strategy or of both, therefore draw the same sequence of [N] keys. *)
Theorem same_key_sequence (N : Z) :
  (0 < C)%nat →
  1 ≤ N →
  length (key_sequence (G := G) N) = Z.to_nat N
  ∧ (∀ m : M, ∃ r w,
       visit_tester_run (G := G) regular_visitor.visitor m N = Some (r, w)
       ∧ drawn w = key_sequence N)
  ∧ (∀ junk (m : M), ∃ r w,
       visit_tester_run (G := G) (bulk_visitor.visitor junk) m N = Some (r, w)
       ∧ drawn w = key_sequence N).
Proof.
  intros HC HN. split_and!.
  - apply draw_keys_length.
  - intros m. destruct (regular_run (G := G) m N) as (g1 & ->). eauto.
  - intros junk m. destruct (bulk_run (G := G) junk m N HC) as (g2 & ->). eauto.
Qed.

(** C3, as the code has it. With a buffer of capacity [C], a run of
    [k*C + r] keys ([r < C]) followed by [flush] makes [k] calls of the
    range visit, the [j]-th on the [j]-th block of [C] keys, and then
    exactly one more, made by [flush], on the [r] keys that remain: a call
    on an empty range when [r = 0]. The cursor is back at 0, and a
    [flush] of the buffer thus emptied makes one more call, on an empty
    range. *)
Theorem flush_call_count junk (m : M) (d : distribution_type) (g : G) (k r : nat) :
  (r < C)%nat →
  ∃ v w, drive (bulk_visitor.visitor junk) (k * C + r)
               (bulk_visitor.make junk m d) (World g [] []) = Some (v, w)
    ∧ length (drawn w) = (k * C + r)%nat
    ∧ calls w = (VisitRange <$> (block C (drawn w) <$> seq 0 k))
                ++ [VisitRange (drop (k * C) (drawn w))]
    ∧ length ∘ call_keys <$> calls w = replicate k C ++ [r]
    ∧ bulk_visitor.i v = 0%nat
    ∧ ∀ w2 : world G, ∃ v2,
        bulk_visitor.flush v w2
        = Some (v2, World (gen w2) (drawn w2) (calls w2 ++ [VisitRange []]))
        ∧ bulk_visitor.i v2 = 0%nat.
Proof.
  intros Hr. assert (HC : (0 < C)%nat) by lia.
  set (v0 := bulk_visitor.make junk m d).
  assert (Hwf : bulk_wf v0) by (by apply bulk_make_wf).
  destruct (bulk_drive (G := G) junk (k * C + r) v0 (World g [] []) Hwf)
    as (v & Hrun & Hwf' & Hi & Hres).
  cbn [gen drawn calls app] in Hrun.
  set (ks := (draw_keys _ _ _ _).1) in *.
  assert (Hlen : length ks = (k * C + r)%nat) by apply draw_keys_length.
  change (pending v0) with (@nil Z) in Hrun.
  rewrite (feed_blocks C k ks) in Hrun by lia. cbn [fst snd] in Hrun.
  eexists _, _. split; [exact Hrun|]. cbn [drawn calls].
  split_and!; [done|done| |done|].
  2:{ intros w2. rewrite bulk_flush_eq. unfold pending. rewrite Hi.
      eexists. split; reflexivity. }
  rewrite fmap_app, <- !list_fmap_compose. cbn [fmap list_fmap].
  f_equal.
  - apply block_lengths. lia.
  - cbn. rewrite length_drop. do 2 f_equal. lia.
Qed.

(** C4, as the code has it. The distribution is built with the bounds
    [0] and [2*N-1], and a uniform integer distribution gives values
    between its two bounds, both included: for [1 <= N <= 2^30] (beyond
    which [2*N-1] is no [int]) every key a run draws, of either strategy,
    satisfies [0 <= k <= 2*N-1]. *)
Theorem drawn_keys_in_closed_range junk (m : M) (N : Z) :
  (∀ a b (g : G), a ≤ b → a ≤ (uniform_int a b g).1 ≤ b) →
  (0 < C)%nat →
  1 ≤ N ≤ 2 ^ 30 →
  (∃ r w, visit_tester_run (G := G) regular_visitor.visitor m N = Some (r, w)
     ∧ length (drawn w) = Z.to_nat N
     ∧ Forall (λ k, 0 ≤ k ≤ 2 * N - 1) (drawn w))
  ∧ (∃ r w, visit_tester_run (G := G) (bulk_visitor.visitor junk) m N = Some (r, w)
     ∧ length (drawn w) = Z.to_nat N
     ∧ Forall (λ k, 0 ≤ k ≤ 2 * N - 1) (drawn w)).
Proof.
  intros Hrange HC HN.
  assert (Hks : Forall (λ k, 0 ≤ k ≤ 2 * N - 1) (key_sequence (G := G) N)).
  { unfold key_sequence. rewrite wrap_int_small by (unfold int_min, int_max; lia).
    apply draw_keys_range. intros g. apply Hrange. lia. }
  assert (Hlen : length (key_sequence (G := G) N) = Z.to_nat N)
    by apply draw_keys_length.
  split.
  - destruct (regular_run (G := G) m N) as (g1 & ->). eauto.
  - destruct (bulk_run (G := G) junk m N HC) as (g2 & ->). eauto.
Qed.

Lemma bulk_call_wf (v : bulk_visitor.t M) (w : world G) :
  bulk_wf v → ∃ v' w', bulk_visitor.call v w = Some (v', w') ∧ bulk_wf v'.
Proof.
  intros Hwf. rewrite bulk_call_eq by done.
  pose proof (pending_length v Hwf) as Hpl. destruct Hwf as [Hi Hk].
  destruct (uniform_int _ _ _) as [k g']. cbv zeta.
  case_decide as Hlen; eexists _, _; (split; [reflexivity|]);
    split; cbn [bulk_visitor.i bulk_visitor.keys];
    rewrite ?length_insert; try done; try lia.
  rewrite length_app, Hpl in Hlen. simpl in Hlen. lia.
Qed.

Lemma bulk_apply_ops_wf junk os (v : bulk_visitor.t M) (w : world G) :
  bulk_wf v →
  ∃ v' w', apply_ops (bulk_visitor.visitor junk) os v w = Some (v', w')
    ∧ bulk_wf v'.
Proof.
  revert v w. induction os as [|o os IH]; intros v w Hwf.
  - by exists v, w.
  - cbn [apply_ops]. unfold pbind.
    destruct o; cbn [apply_op vcall vflush bulk_visitor.visitor].
    + destruct (bulk_call_wf v w Hwf) as (v1 & w1 & -> & Hwf1). by apply IH.
    + rewrite bulk_flush_eq. apply IH. destruct Hwf as [Hi Hk].
      split; cbn [bulk_visitor.i bulk_visitor.keys]; [lia|done].
Qed.

(** C9. From a freshly constructed batched visitor (the batch size being
    positive), every finite sequence of calls of [operator()] and [flush]
    returns, and leaves the cursor [i] below the capacity [N] of the array
    of [N] cells: no write of a key falls outside the array. *)
Theorem cursor_in_bounds junk (m : M) (d : distribution_type)
    (os : list visitor_op) (w : world G) :
  (0 < C)%nat →
  ∃ v' w', apply_ops (bulk_visitor.visitor junk) os
                     (bulk_visitor.make junk m d) w = Some (v', w')
    ∧ (0 ≤ bulk_visitor.i v' < C)%nat
    ∧ length (bulk_visitor.keys v') = C.
Proof.
  intros HC.
  destruct (bulk_apply_ops_wf junk os (bulk_visitor.make junk m d) w)
    as (v' & w' & Hrun & Hi & Hk); [by apply bulk_make_wf|].
  exists v', w'. split_and!; [done|lia|done|done].
Qed.

Section Bounds.
(** The contract of the container on the counts it returns. *)
Hypothesis visit_01 : ∀ (m : M) k, 0 ≤ visit m k ≤ 1.
Hypothesis visit_range_le : ∀ (m : M) ks, 0 ≤ visit_range m ks ≤ Z.of_nat (length ks).

Lemma add_count_exact (r c bound j : Z) :
  0 ≤ r → 0 ≤ c ≤ bound → r + bound ≤ j → j ≤ int_max →
  wrap_int (r + wrap_int c) = r + c.
Proof.
  intros. assert (int_min ≤ 0) by (unfold int_min; lia).
  rewrite (wrap_int_small c) by lia. apply wrap_int_small. lia.
Qed.

Lemma regular_after j (m : M) d (w0 : world G) :
  Z.of_nat j ≤ int_max →
  ∃ v w, repeat_prog j regular_visitor.call (regular_visitor.make m d) w0 = Some (v, w)
    ∧ regular_visitor.m v = m
    ∧ 0 ≤ regular_visitor.res v ≤ Z.of_nat j.
Proof.
  intros Hj. rewrite regular_repeat.
  cbn [regular_visitor.make regular_visitor.dist regular_visitor.m regular_visitor.res].
  pose proof (draw_keys_length (dist_a d) (dist_b d) j (gen w0)) as Hlen.
  destruct (draw_keys _ _ _ _) as [ks g']. cbn [fst] in Hlen.
  eexists _, _. split; [reflexivity|]. cbn [regular_visitor.m regular_visitor.res].
  split; [done|].
  assert (Hone : sumZ ((λ _ : Z, 1) <$> ks) = Z.of_nat (length ks)).
  { clear. induction ks as [|k ks IH]; [done|].
    rewrite fmap_cons, sumZ_cons, IH. cbn [length]. lia. }
  destruct (foldl_wrap_exact (visit m) (λ _, 1) ks 0) as (-> & ? & ?);
    [apply Forall_forall; intros; apply visit_01|lia|lia|lia].
Qed.

Lemma bulk_after junk j (m : M) d (w0 : world G) :
  (0 < C)%nat → Z.of_nat j ≤ int_max →
  ∃ v w, repeat_prog j bulk_visitor.call (bulk_visitor.make junk m d) w0 = Some (v, w)
    ∧ bulk_wf v
    ∧ bulk_visitor.m v = m
    ∧ 0 ≤ bulk_visitor.res v
    ∧ bulk_visitor.res v + Z.of_nat (length (pending v)) ≤ Z.of_nat j.
Proof.
  intros HC Hj.
  destruct (bulk_repeat j (bulk_visitor.make junk m d) w0)
    as (v & Hrun & Hwf & Hp & Hm & _ & Hr); [by apply bulk_make_wf|].
  change (pending (bulk_visitor.make junk m d)) with (@nil Z) in Hp, Hr, Hrun.
  cbn [bulk_visitor.make bulk_visitor.dist bulk_visitor.m bulk_visitor.res] in *.
  pose proof (draw_keys_length (dist_a d) (dist_b d) j (gen w0)) as Hlen.
  set (ks := (draw_keys _ _ _ _).1) in *.
  pose proof (feed_concat C [] ks) as Hcat.
  apply (f_equal length) in Hcat. rewrite length_app in Hcat. cbn [app] in Hcat.
  eexists _, _. split; [exact Hrun|]. split_and!; [done|done| |].
  - rewrite Hr.
    destruct (foldl_wrap_exact (visit_range m) (λ l, Z.of_nat (length l))
                (feed C [] ks).1 0) as (-> & ? & ?);
      [apply Forall_forall; intros; apply visit_range_le|lia
      |rewrite sumZ_length_concat; lia|lia].
  - rewrite Hr, Hp.
    destruct (foldl_wrap_exact (visit_range m) (λ l, Z.of_nat (length l))
                (feed C [] ks).1 0) as (-> & Hle & ?);
      [apply Forall_forall; intros; apply visit_range_le|lia
      |rewrite sumZ_length_concat; lia|].
    rewrite sumZ_length_concat in Hle. lia.
Qed.

(** C10. Under the contract that the visit of a key counts 0 or 1 and the
    visit of a range of [k] keys counts between 0 and [k], the accumulated
    count [res] of either strategy never goes down, from call to call and
    through the final [flush], along a run of [n] keys ([n] an [int]); and
    after the [flush] it lies between 0 and [n]. *)
Theorem count_nondecreasing_and_bounded junk (m : M) (d : distribution_type)
    (w0 : world G) (n : nat) :
  (0 < C)%nat →
  Z.of_nat n ≤ int_max →
  res_nondecreasing regular_visitor.visitor (regular_visitor.make m d) w0 n
  ∧ res_nondecreasing (bulk_visitor.visitor junk) (bulk_visitor.make junk m d) w0 n.
Proof.
  intros HC Hn. split; split.
  - intros j Hj. cbn [vcall vres regular_visitor.visitor].
    destruct (regular_after j m d w0) as (v & w & Hrun & Hm & Hres); [lia|].
    exists v, w. rewrite regular_call_eq.
    destruct (uniform_int _ _ _) as [k g']. eexists _, _.
    split_and!; [done|reflexivity|]. cbn [regular_visitor.res].
    pose proof (visit_01 (regular_visitor.m v) k).
    rewrite (add_count_exact _ _ 1 (Z.of_nat n)); lia.
  - cbn [vcall vflush vres regular_visitor.visitor].
    destruct (regular_after n m d w0) as (v & w & Hrun & Hm & Hres); [lia|].
    exists v, w, v, w. split_and!; [done|done|lia|lia|lia].
  - intros j Hj. cbn [vcall vres bulk_visitor.visitor].
    destruct (bulk_after junk j m d w0) as (v & w & Hrun & Hwf & Hm & H0 & Hres);
      [done|lia|].
    exists v, w. rewrite bulk_call_eq by done.
    destruct (uniform_int _ _ _) as [k g']. cbv zeta.
    pose proof (visit_range_le (bulk_visitor.m v) (pending v ++ [k])) as Hc.
    rewrite length_app in Hc. cbn [length] in Hc.
    case_decide; eexists _, _; (split_and!; [done|reflexivity|]);
      cbn [bulk_visitor.res]; [|lia].
    rewrite (add_count_exact _ _ (Z.of_nat (length (pending v) + 1)) (Z.of_nat n)); lia.
  - cbn [vcall vflush vres bulk_visitor.visitor].
    destruct (bulk_after junk n m d w0) as (v & w & Hrun & Hwf & Hm & H0 & Hres);
      [done|lia|].
    exists v, w. rewrite bulk_flush_eq. eexists _, _.
    pose proof (visit_range_le (bulk_visitor.m v) (pending v)) as Hc.
    split_and!; [done|reflexivity| | |]; cbn [bulk_visitor.res];
      rewrite (add_count_exact _ _ (Z.of_nat (length (pending v))) (Z.of_nat n)); lia.
Qed.
End Bounds.
End Equivalence.

(** ** The order of positive doubles *)

Lemma positive_double_spec x :
  positive_double x →
  (∃ m e, Prim2SF x = S754_finite false m e) ∨ Prim2SF x = S754_infinity false.
Proof.
  unfold positive_double. rewrite FloatAxioms.ltb_spec.
  change (Prim2SF 0) with (S754_zero false).
  destruct (Prim2SF x) as [s|s| |s m e]; try destruct s; cbn; try done; eauto.
Qed.

(** On positive doubles [<] is a strict total order. *)
Lemma double_lt_trans x y z :
  positive_double x → positive_double y → positive_double z →
  (x <? y)%float = true → (y <? z)%float = true → (x <? z)%float = true.
Proof.
  intros Hx Hy Hz. rewrite !FloatAxioms.ltb_spec.
  destruct (positive_double_spec x Hx) as [(m1 & e1 & ->)| ->],
           (positive_double_spec y Hy) as [(m2 & e2 & ->)| ->],
           (positive_double_spec z Hz) as [(m3 & e3 & ->)| ->];
    unfold SFltb, SFcompare; try done.
  change (Pos.compare_cont Eq) with Pos.compare.
  destruct (Z.compare_spec e1 e2), (Z.compare_spec e2 e3); try done; subst;
    try (rewrite Z.compare_refl); try (destruct (Z.compare_spec e1 e3); try done; lia).
  - destruct (Pos.compare_spec m1 m2), (Pos.compare_spec m2 m3); try done.
    intros _ _. destruct (Pos.compare_spec m1 m3); try done; lia.
  - intros _ _. destruct (Z.compare_spec e2 e3); try done; lia.
Qed.

Lemma double_trichotomy x y :
  positive_double x → positive_double y →
  ((x <? y)%float = true ∧ (y <? x)%float = false)
  ∨ (x = y ∧ (x <? y)%float = false)
  ∨ ((y <? x)%float = true ∧ (x <? y)%float = false).
Proof.
  intros Hx Hy. rewrite !FloatAxioms.ltb_spec.
  destruct (positive_double_spec x Hx) as [(m1 & e1 & Ex)| Ex],
           (positive_double_spec y Hy) as [(m2 & e2 & Ey)| Ey];
    rewrite ?Ex, ?Ey; unfold SFltb, SFcompare; auto.
  - change (Pos.compare_cont Eq) with Pos.compare.
    rewrite (Z.compare_antisym e1 e2), (Pos.compare_antisym m1 m2).
    destruct (Z.compare_spec e1 e2); cbn; auto.
    destruct (Pos.compare_spec m1 m2); cbn; auto.
    right; left. split; [|done]. apply Prim2SF_inj. rewrite Ex, Ey. by subst.
  - right; left. split; [|done]. apply Prim2SF_inj. by rewrite Ex, Ey.
Qed.

Lemma double_le_spec x y :
  positive_double x → positive_double y →
  double_le x y ↔ (y <? x)%float = false.
Proof.
  intros Hx Hy. unfold double_le. rewrite FloatAxioms.leb_spec, FloatAxioms.ltb_spec.
  destruct (positive_double_spec x Hx) as [(m1 & e1 & ->)| ->],
           (positive_double_spec y Hy) as [(m2 & e2 & ->)| ->];
    unfold SFleb, SFltb, SFcompare; try done.
  change (Pos.compare_cont Eq) with Pos.compare.
  rewrite (Z.compare_antisym e1 e2), (Pos.compare_antisym m1 m2).
  destruct (Z.compare_spec e1 e2); cbn; try done.
  destruct (Pos.compare_spec m1 m2); cbn; done.
Qed.

Lemma double_le_antisym x y :
  positive_double x → positive_double y →
  double_le x y → double_le y x → x = y.
Proof.
  intros Hx Hy. rewrite !double_le_spec by done. intros H1 H2.
  destruct (double_trichotomy x y Hx Hy) as [[? ?]|[[? ?]|[? ?]]]; congruence.
Qed.

Lemma double_le_trans x y z :
  positive_double x → positive_double y → positive_double z →
  double_le x y → double_le y z → double_le x z.
Proof.
  intros Hx Hy Hz. rewrite !double_le_spec by done. intros H1 H2.
  destruct (double_trichotomy x z Hx Hz) as [[? ?]|[[-> ?]|[Hzx ?]]]; try done.
  destruct (double_trichotomy x y Hx Hy) as [[Hxy ?]|[[-> ?]|[? ?]]]; try congruence.
  pose proof (double_lt_trans z x y Hz Hx Hy Hzx Hxy). congruence.
Qed.

(** ** Sorting the trials *)

Lemma insert_sorted_perm x l : insert_sorted x l ≡ₚ x :: l.
Proof.
  induction l as [|y l IH]; cbn; [done|].
  destruct (x <? y)%float; [done|]. rewrite IH. apply Permutation_swap.
Qed.

Lemma sort_perm l : sort l ≡ₚ l.
Proof.
  induction l as [|x l IH]; [done|].
  cbn. rewrite insert_sorted_perm. by constructor.
Qed.

Lemma insert_sorted_sorted x l :
  positive_double x → Forall positive_double l →
  StronglySorted double_le l → StronglySorted double_le (insert_sorted x l).
Proof.
  intros Hx Hl Hs. induction Hs as [|y l Hs IH Hy]; cbn.
  - repeat constructor.
  - inversion Hl as [|? ? Hpy Hpl]; subst.
    destruct (double_trichotomy x y Hx Hpy) as [[Hlt Hgt]|[[-> Hlt]|[Hgt Hlt]]];
      rewrite Hlt.
    + assert (Hxy : double_le x y) by (by apply double_le_spec).
      constructor; [by constructor|].
      constructor; [done|].
      rewrite Forall_forall in Hy, Hpl |- *. intros z Hz.
      apply (double_le_trans x y z); auto.
    + constructor; [by apply IH|].
      rewrite (insert_sorted_perm y l). constructor; [|done].
      by apply double_le_spec.
    + constructor; [by apply IH|].
      rewrite (insert_sorted_perm x l). constructor; [|done].
      by apply double_le_spec.
Qed.

Lemma sort_sorted l :
  Forall positive_double l → StronglySorted double_le (sort l).
Proof.
  induction 1 as [|x l Hx Hl IH]; cbn; [constructor|].
  apply insert_sorted_sorted; [done| |done]. by rewrite sort_perm.
Qed.

(** A list of positive doubles has one ascending arrangement. *)
Lemma sorted_perm_unique l1 l2 :
  Forall positive_double l1 →
  StronglySorted double_le l1 → StronglySorted double_le l2 →
  l1 ≡ₚ l2 → l1 = l2.
Proof.
  intros Hpos Hs1. revert l2. induction Hs1 as [|x l1 Hs1 IH Hx]; intros l2 Hs2 Hperm.
  - by apply Permutation_nil_l in Hperm.
  - destruct Hs2 as [|y l2 Hs2 Hy].
    { by apply Permutation_nil_r in Hperm. }
    inversion Hpos as [|? ? Hpx Hpl]; subst.
    assert (Hpy : positive_double y).
    { rewrite Forall_forall in Hpos. apply Hpos. rewrite Hperm. left. }
    assert (x = y) as ->.
    { assert (Hin1 : x ∈ y :: l2) by (rewrite <- Hperm; left).
      assert (Hin2 : y ∈ x :: l1) by (rewrite Hperm; left).
      apply elem_of_cons in Hin1 as [->|Hin1]; [done|].
      apply elem_of_cons in Hin2 as [->|Hin2]; [done|].
      rewrite Forall_forall in Hx, Hy.
      apply double_le_antisym; auto. }
    f_equal. apply IH; [done|done|]. by apply Permutation_cons_inv in Hperm.
Qed.

Lemma sort_of_permutation l1 l2 :
  Forall positive_double l1 → l1 ≡ₚ l2 → sort l1 = sort l2.
Proof.
  intros Hpos Hperm.
  assert (Hpos2 : Forall positive_double l2) by (by rewrite <- Hperm).
  apply sorted_perm_unique.
  - by rewrite sort_perm.
  - by apply sort_sorted.
  - by apply sort_sorted.
  - by rewrite !sort_perm.
Qed.

(** C2. Ten positive trial averages: the value [measure] returns is
    obtained from their ascending arrangement [s0 <= ... <= s9] by leaving
    out [s0], [s1], [s8] and [s9] and dividing the sum of the six others,
    added in that order from 0.0, by 6. For the averages 1, ..., 9 and 100,
    in any order, this value is 5.5. *)
Theorem trimmed_mean_of_sorted_trials (trials : list float) :
  length trials = num_trials →
  Forall positive_double trials →
  (∃ s0 s1 s2 s3 s4 s5 s6 s7 s8 s9,
     trials ≡ₚ [s0; s1; s2; s3; s4; s5; s6; s7; s8; s9]
     ∧ StronglySorted double_le [s0; s1; s2; s3; s4; s5; s6; s7; s8; s9]
     ∧ trimmed_mean trials
       = ((0 + s2 + s3 + s4 + s5 + s6 + s7) / 6)%float)
  ∧ (trials ≡ₚ [1; 2; 3; 4; 5; 6; 7; 8; 9; 100]%float →
     trimmed_mean trials = 5.5%float).
Proof.
  intros Hlen Hpos. split.
  - pose proof (sort_perm trials) as Hperm.
    pose proof (sort_sorted trials Hpos) as Hsorted.
    assert (Hl : length (sort trials) = 10%nat) by (by rewrite Hperm).
    unfold trimmed_mean.
    destruct (sort trials) as [|s0 [|s1 [|s2 [|s3 [|s4 [|s5 [|s6 [|s7 [|s8 [|s9 [|]]]]]]]]]]];
      try discriminate Hl.
    exists s0, s1, s2, s3, s4, s5, s6, s7, s8, s9. split_and!; [done|done|].
    reflexivity.
  - intros Hperm. unfold trimmed_mean.
    rewrite (sort_of_permutation _ _ Hpos Hperm). reflexivity.
Qed.

(** ** The clock *)

Section Clock.
Variable clock : nat → Z.
Variable ticks_per_second : Z.

Lemma now_eq (t : timer) :
  now clock t = Some (clock (reads t),
                      Timer (S (reads t)) (measure_start t) (measure_pause t)).
Proof. reflexivity. Qed.

(** C7. [pause_timing] is called and reads the time [p]; later, with the
    two time points as the pause left them, [resume_timing] is called and
    reads the time [r]. Then the trial origin [measure_start], [s] before,
    is [s + (r - p)], and the elapsed time read at any time [t] from then
    on, [t - measure_start], is what it would have been with the origin
    [s], less the paused interval [r - p]. *)
Theorem resume_excludes_paused_interval (before at_resume : timer) :
  let s := measure_start before in
  let p := clock (reads before) in
  let r := clock (reads at_resume) in
  ∀ paused,
    pause_timing clock before = Some (tt, paused) →
    measure_start at_resume = measure_start paused →
    measure_pause at_resume = measure_pause paused →
    measure_pause paused = p
    ∧ measure_start paused = s
    ∧ ∃ resumed,
        resume_timing clock at_resume = Some (tt, resumed)
        ∧ measure_start resumed = s + (r - p)
        ∧ ∀ t, t - measure_start resumed = (t - s) - (r - p).
Proof.
  intros s p r paused Hpause Hstart Hpaused.
  unfold pause_timing, pbind, pmodify in Hpause. rewrite now_eq in Hpause.
  injection Hpause as <-. cbn [measure_start measure_pause] in *.
  split_and!; [done|done|].
  unfold resume_timing, pbind, pmodify. rewrite now_eq.
  eexists. split; [reflexivity|]. cbn [measure_start measure_pause reads].
  rewrite Hstart, Hpaused. subst s p r. split; [done|]. intros t. lia.
Qed.

Section Trial.
Context {A : Type}.
Variable f : prog timer A.

(** What the loop returns, when it returns: after [k >= 1] rounds, with
    the last reading of the clock at or beyond the minimum time. *)
Lemma trial_loop_returns fuel runs0 stored0 st runs stored t2 st' :
  trial_loop clock ticks_per_second f fuel runs0 stored0 st
  = Some ((runs, stored, t2), st') →
  ∃ (k : nat) new,
    (1 ≤ k ≤ fuel)%nat
    ∧ runs = wrap_int (runs0 + Z.of_nat k)
    ∧ stored = stored0 ++ new ∧ length new = k
    ∧ ¬ before_min_time ticks_per_second (t2 - measure_start st')
    ∧ (0 < reads st')%nat ∧ t2 = clock (pred (reads st')).
Proof.
  revert runs0 stored0 st. induction fuel as [|fuel IH]; intros runs0 stored0 st; [done|].
  cbn [trial_loop]. unfold pbind at 1.
  destruct (f st) as [[res s1]|]; [|done].
  unfold pbind at 1. rewrite now_eq. unfold pbind at 1, pget at 1.
  cbn [measure_start].
  case_decide as Hbefore.
  - intros Hrun. destruct (IH _ _ _ Hrun) as (k & new & Hk & -> & -> & Hnew & Hmin & Hreads).
    exists (S k), (res :: new). split_and!; [lia|lia| | | |done|apply Hreads|apply Hreads].
    + rewrite wrap_int_add_l. f_equal. lia.
    + by rewrite <- app_assoc.
    + cbn. lia.
  - unfold pret. intros [= <- <- <- <-].
    exists 1%nat, [res]. cbn [measure_start reads pred].
    split_and!; try done; lia.
Qed.

Lemma one_trial_returns fuel st tr st' :
  Z.of_nat fuel ≤ int_max →
  one_trial clock ticks_per_second f fuel st = Some (tr, st') →
  1 ≤ runs tr
  ∧ Z.of_nat (length (stored tr)) = runs tr
  ∧ min_time_per_trial * ticks_per_second ≤ elapsed tr * 1000
  ∧ elapsed tr = clock (pred (reads st')) - measure_start st'
  ∧ average tr
    = (double_of_Z (elapsed tr) / double_of_Z ticks_per_second
       / double_of_Z (runs tr))%float.
Proof.
  intros Hfuel. unfold one_trial.
  unfold pbind at 1. rewrite now_eq.
  unfold pbind at 1, pmodify at 1. unfold pbind at 1.
  destruct (trial_loop _ _ _ _ _ _ _) as [[[[n vs] t2] s1]|] eqn:Hloop; [|done].
  unfold pbind, pget, pret. intros [= <- <-].
  cbn [runs stored elapsed average].
  destruct (trial_loop_returns _ _ _ _ _ _ _ _ Hloop)
    as (k & new & Hk & -> & -> & Hnew & Hmin & Hreads & ->).
  rewrite Z.add_0_l, wrap_int_small by (unfold int_min, int_max in *; lia).
  unfold before_min_time in Hmin. cbn [app].
  split_and!; [lia|lia|lia|done|done].
Qed.

(** A candidate that leaves the timer alone, and a clock that reaches
    the minimum time at its [j]-th reading after the start: the trial
    returns, whenever it is given more than [j] rounds. *)
Lemma trial_loop_terminates j fuel runs0 stored0 st :
  (∀ s, ∃ a, f s = Some (a, s)) →
  (j < fuel)%nat →
  ¬ before_min_time ticks_per_second (clock (reads st + j) - measure_start st) →
  is_Some (trial_loop clock ticks_per_second f fuel runs0 stored0 st).
Proof.
  intros Hf. revert fuel runs0 stored0 st.
  induction j as [|j IH]; intros fuel runs0 stored0 st Hj Hmin;
    (destruct fuel as [|fuel]; [lia|]);
    cbn [trial_loop]; unfold pbind at 1;
    destruct (Hf st) as [a ->];
    unfold pbind at 1; rewrite now_eq; unfold pbind at 1, pget at 1;
    cbn [measure_start]; case_decide as Hbefore.
  - rewrite Nat.add_0_r in Hmin. done.
  - done.
  - apply IH; [lia|]. cbn [reads measure_start].
    by replace (S (reads st) + j)%nat with (reads st + S j)%nat by lia.
  - done.
Qed.

Lemma one_trial_terminates j fuel st :
  (∀ s, ∃ a, f s = Some (a, s)) →
  (j < fuel)%nat →
  ¬ before_min_time ticks_per_second
      (clock (S (reads st) + j) - clock (reads st)) →
  is_Some (one_trial clock ticks_per_second f fuel st).
Proof.
  intros Hf Hj Hmin. unfold one_trial.
  unfold pbind at 1. rewrite now_eq.
  unfold pbind at 1, pmodify at 1. unfold pbind at 1.
  destruct (trial_loop_terminates j fuel 0 []
              (Timer (S (reads st)) (clock (reads st)) (measure_pause st)) Hf Hj Hmin)
    as [[[[runs stored] t2] s1] Hloop].
  cbn [reads measure_pause]. rewrite Hloop. done.
Qed.

(** C6, as the code has it. Take a trial that is given [fuel] rounds,
    [fuel] an [int]. When it returns, it has called the candidate at
    least once: its run counter is at least 1 and counts the values
    stored in the volatile [res]; and it returned only with the elapsed
    time, the last reading of the clock less the trial origin, at least
    the 200 ms of [min_time_per_trial]. The average it records is the
    elapsed time in seconds as a double, divided by the run counter as a
    double. And it does return for a candidate that leaves the timer
    alone, when the clock reaches the minimum time within [fuel] readings
    after the start. *)
Theorem trial_runs_until_min_time fuel st :
  Z.of_nat fuel ≤ int_max →
  (∀ tr st',
     one_trial clock ticks_per_second f fuel st = Some (tr, st') →
     1 ≤ runs tr
     ∧ Z.of_nat (length (stored tr)) = runs tr
     ∧ min_time_per_trial * ticks_per_second ≤ elapsed tr * 1000
     ∧ elapsed tr = clock (pred (reads st')) - measure_start st'
     ∧ average tr
       = (double_of_Z (elapsed tr) / double_of_Z ticks_per_second
          / double_of_Z (runs tr))%float)
  ∧ (∀ j,
       (∀ s, ∃ a, f s = Some (a, s)) →
       (j < fuel)%nat →
       ¬ before_min_time ticks_per_second
           (clock (S (reads st) + j) - clock (reads st)) →
       is_Some (one_trial clock ticks_per_second f fuel st)).
Proof.
  intros Hfuel. split.
  - intros tr st'. by apply one_trial_returns.
  - intros j. apply one_trial_terminates.
Qed.
End Trial.
End Clock.

(** ** The dataset *)

Lemma dataset_after (R : Z) (n : nat) :
  let c := foldl (λ m i, concurrent_flat_map.insert (i, i) m)
                 (concurrent_flat_map.reserve R concurrent_flat_map.empty)
                 (seqZ 0 (Z.of_nat n)) in
  (∀ k, concurrent_flat_map.table c !! k
        = if decide (0 ≤ k < Z.of_nat n) then Some k else None)
  ∧ size (concurrent_flat_map.table c) = n
  ∧ concurrent_flat_map.reserved c = Z.max (Z.max 0 R) (Z.of_nat n).
Proof.
  induction n as [|n (IHl & IHs & IHr)].
  - change (seqZ 0 (Z.of_nat 0)) with (@nil Z).
    unfold concurrent_flat_map.reserve, concurrent_flat_map.empty.
    cbn [foldl concurrent_flat_map.table concurrent_flat_map.reserved].
    split_and!; [|done|lia].
    intros k. rewrite lookup_empty. by rewrite decide_False by lia.
  - rewrite seqZ_S, foldl_app. cbn [foldl].
    set (c := foldl _ _ _) in *. cbv zeta in *.
    unfold concurrent_flat_map.insert. cbn [fst snd].
    rewrite Z.add_0_l, IHl, decide_False by lia.
    cbn [concurrent_flat_map.table concurrent_flat_map.reserved].
    split_and!.
    + intros k. rewrite lookup_insert.
      destruct (decide (Z.of_nat n = k)) as [<-|Hne].
      * by rewrite decide_True by lia.
      * rewrite IHl. repeat case_decide; try done; lia.
    + rewrite map_size_insert_None; [lia|].
      rewrite IHl. by rewrite decide_False by lia.
    + rewrite IHr, IHs. lia.
Qed.

Lemma dataset_history (R : Z) (l : list Z) :
  concurrent_flat_map.history
    (foldl (λ m i, concurrent_flat_map.insert (i, i) m)
           (concurrent_flat_map.reserve R concurrent_flat_map.empty) l)
  = concurrent_flat_map.Reserved R
    :: ((λ i, concurrent_flat_map.Inserted i i) <$> l).
Proof.
  induction l as [|i l IH] using rev_ind; [done|].
  rewrite foldl_app, fmap_app. cbn [foldl].
  unfold concurrent_flat_map.insert at 1. cbn [fst snd].
  by destruct (concurrent_flat_map.table _ !! i);
    cbn [concurrent_flat_map.history]; rewrite IH.
Qed.

(** The dataset of a size that fits [std::size_t]: storage for [N]
    entries is reserved in the empty container, the container then holds
    exactly the keys [0 .. N-1], each mapped to itself, and the storage is
    still the one reserved. *)
Lemma dataset_contents (N : Z) :
  0 ≤ N < 2 ^ 64 →
  concurrent_flat_map.reserved
    (concurrent_flat_map.reserve (to_size_t N) concurrent_flat_map.empty) = N
  ∧ (∀ k, concurrent_flat_map.table (dataset N) !! k
          = if decide (0 ≤ k < N) then Some k else None)
  ∧ Z.of_nat (size (concurrent_flat_map.table (dataset N))) = N
  ∧ concurrent_flat_map.reserved (dataset N) = N.
Proof.
  intros HN.
  assert (Hs : to_size_t N = N) by (unfold to_size_t; apply Z.mod_small; lia).
  pose proof (dataset_after N (Z.to_nat N)) as (Hl & Hsz & Hr).
  rewrite Z2Nat.id in * by lia. unfold dataset. rewrite Hs.
  split_and!.
  - cbn. lia.
  - exact Hl.
  - rewrite Hsz. lia.
  - rewrite Hr. lia.
Qed.

(** ** The collaborators keep their contracts *)

Lemma flat_map_visit_01 (c : concurrent_flat_map.t) k :
  0 ≤ visit c k ≤ 1.
Proof.
  cbn. unfold concurrent_flat_map.visit.
  destruct (concurrent_flat_map.table c !! k); lia.
Qed.

Lemma flat_map_visit_range_sum (c : concurrent_flat_map.t) ks :
  visit_range c ks = sumZ (visit c <$> ks).
Proof.
  cbn. unfold concurrent_flat_map.visit_range.
  induction ks as [|k ks IH]; [done|].
  cbn [foldr]. rewrite IH, fmap_cons, sumZ_cons. done.
Qed.

Lemma flat_map_visit_range_le (c : concurrent_flat_map.t) ks :
  0 ≤ visit_range c ks ≤ Z.of_nat (length ks).
Proof.
  rewrite flat_map_visit_range_sum.
  induction ks as [|k ks IH]; [cbn; lia|].
  rewrite fmap_cons, sumZ_cons. pose proof (flat_map_visit_01 c k).
  cbn [length]. lia.
Qed.

Lemma lxor_below_pow2 a b n :
  0 < n → 0 ≤ a < 2 ^ n → 0 ≤ b < 2 ^ n → 0 ≤ Z.lxor a b < 2 ^ n.
Proof.
  intros Hn Ha Hb.
  assert (H0 : 0 ≤ Z.lxor a b) by (apply Z.lxor_nonneg; lia).
  split; [done|].
  destruct (decide (Z.lxor a b = 0)) as [->|Hne]; [lia|].
  apply Z.log2_lt_pow2; [lia|].
  eapply Z.le_lt_trans; [apply Z.log2_lxor; lia|].
  apply Z.max_lub_lt.
  - destruct (decide (a = 0)) as [->|?]; [done|]. apply Z.log2_lt_pow2; lia.
  - destruct (decide (b = 0)) as [->|?]; [done|]. apply Z.log2_lt_pow2; lia.
Qed.

Lemma splitmix64_next_range g :
  0 ≤ (splitmix64_engine.next g).1 < 2 ^ 64.
Proof.
  unfold splitmix64_engine.next, splitmix64_engine.u64. cbn [fst].
  set (z := (Z.lxor _ _ * _) mod _).
  assert (Hz : 0 ≤ z < 2 ^ 64) by (apply Z.mod_pos_bound; lia).
  apply lxor_below_pow2; [lia|done|].
  rewrite Z.shiftr_div_pow2 by lia. split.
  - apply Z.div_pos; lia.
  - apply Z.div_lt_upper_bound; lia.
Qed.

Lemma downscaling_redraw_range n range threshold product g :
  0 < range → 0 ≤ product < 2 ^ 64 * range →
  0 ≤ (downscaling.redraw n range threshold product g).1 < 2 ^ 64 * range.
Proof.
  intros Hr. revert product g. induction n as [|n IH]; intros product g Hp; [done|].
  cbn [downscaling.redraw]. case_decide; [|done].
  pose proof (splitmix64_next_range g) as Hn.
  destruct (splitmix64_engine.next g) as [r g']. cbn [fst] in Hn.
  apply IH. nia.
Qed.

Lemma downscaling_below_range range g :
  0 < range → 0 ≤ (downscaling.below range g).1 < range.
Proof.
  intros Hr. unfold downscaling.below.
  pose proof (splitmix64_next_range g) as Hn.
  destruct (splitmix64_engine.next g) as [r g1]. cbn [fst] in Hn.
  assert (Hp : 0 ≤ r * range < 2 ^ 64 * range) by nia.
  case_decide.
  - pose proof (downscaling_redraw_range downscaling.rounds range
                  ((2 ^ 64 - range) mod range) (r * range) g1 Hr Hp) as Hq.
    destruct (downscaling.redraw _ _ _ _ _) as [product g2]. cbn [fst] in *.
    split; [apply Z.div_pos; lia|apply Z.div_lt_upper_bound; lia].
  - cbn [fst]. split; [apply Z.div_pos; lia|apply Z.div_lt_upper_bound; lia].
Qed.

(** The distribution gives values between its bounds, both included. *)
Lemma downscaling_draw_range a b (g : Z) :
  a ≤ b → a ≤ (uniform_int a b g).1 ≤ b.
Proof.
  intros Hab. unfold uniform_int, downscaling_impl, downscaling.draw.
  pose proof (downscaling_below_range (b - a + 1) g) as Hr.
  destruct (downscaling.below _ _) as [r g']. cbn [fst] in *. lia.
Qed.

(** ** The claims at concrete inputs *)

Lemma hit_count_equivalence_witness :
  ∃ r, visit_tester (G := Z) regular_visitor.visitor (dataset 100) 100 = Some r
     ∧ visit_tester (G := Z) (bulk_visitor.visitor []) (dataset 100) 100 = Some r.
Proof.
  apply (hit_count_equivalence (G := Z) [] (dataset 100) 100).
  - apply flat_map_visit_range_sum.
  - change (0 < 16)%nat. lia.
  - lia.
Defined.

Lemma trimmed_mean_witness :
  (∃ s0 s1 s2 s3 s4 s5 s6 s7 s8 s9,
     [100; 9; 8; 7; 6; 5; 4; 3; 2; 1]%float
       ≡ₚ [s0; s1; s2; s3; s4; s5; s6; s7; s8; s9]
     ∧ StronglySorted double_le [s0; s1; s2; s3; s4; s5; s6; s7; s8; s9]
     ∧ trimmed_mean [100; 9; 8; 7; 6; 5; 4; 3; 2; 1]%float
       = ((0 + s2 + s3 + s4 + s5 + s6 + s7) / 6)%float)
  ∧ trimmed_mean [100; 9; 8; 7; 6; 5; 4; 3; 2; 1]%float = 5.5%float.
Proof.
  destruct (trimmed_mean_of_sorted_trials [100; 9; 8; 7; 6; 5; 4; 3; 2; 1]%float)
    as [Hsorted Hmean].
  - reflexivity.
  - repeat constructor.
  - split; [exact Hsorted|]. apply Hmean.
    change [100; 9; 8; 7; 6; 5; 4; 3; 2; 1]%float
      with (reverse [1; 2; 3; 4; 5; 6; 7; 8; 9; 100]%float).
    apply reverse_Permutation.
Defined.

(** C3, as stated, fails: [flush] on the empty buffer of a new visitor
    makes a call of the range visit, on an empty range; and the run of
    [visit_tester] on 16 keys with the batch size 16 ([k = 1], [r = 0])
    makes two calls, the second on an empty range, not one. *)
Lemma flush_of_empty_buffer_visits :
  (∃ v w,
     bulk_visitor.flush
       (bulk_visitor.make [] (dataset 0) (uniform_int_distribution 0 1))
       (World (splitmix64_urng seed) [] []) = Some (v, w)
     ∧ calls w = [VisitRange []])
  ∧ (∃ r w,
       visit_tester_run (G := Z) (bulk_visitor.visitor []) (dataset 16) 16
       = Some (r, w)
       ∧ length (drawn w) = 16%nat
       ∧ length (calls w) = 2%nat
       ∧ last (calls w) = Some (VisitRange [])).
Proof.
  split.
  - eexists _, _. split; reflexivity.
  - eexists _, _. split; [vm_compute; reflexivity|].
    split_and!; reflexivity.
Qed.

(** The scenario of a buffer of 64 keys and a run of 130 keys. *)
Lemma flush_call_count_witness :
  ∃ v w,
    drive (G := Z) (bulk_visitor.visitor (BulkVisitMap0 := flat_map_batch 64) [])
      130 (bulk_visitor.make (BulkVisitMap0 := flat_map_batch 64) []
             (dataset 100) (uniform_int_distribution 0 199))
      (World (splitmix64_urng seed) [] []) = Some (v, w)
    ∧ length (drawn w) = 130%nat
    ∧ calls w = (VisitRange <$> (block 64 (drawn w) <$> seq 0 2))
                ++ [VisitRange (drop 128 (drawn w))]
    ∧ length ∘ call_keys <$> calls w = [64; 64; 2]%nat
    ∧ bulk_visitor.i v = 0%nat
    ∧ ∀ w2 : world Z, ∃ v2,
        bulk_visitor.flush v w2
        = Some (v2, World (gen w2) (drawn w2) (calls w2 ++ [VisitRange []]))
        ∧ bulk_visitor.i v2 = 0%nat.
Proof.
  apply (flush_call_count (G := Z) (BulkVisitMap0 := flat_map_batch 64)
           [] (dataset 100) (uniform_int_distribution 0 199)
           (splitmix64_urng seed) 2 2).
  change (2 < 64)%nat. lia.
Defined.

(** C4, as stated, fails: the run for [N = 1] draws the key 1, and the
    run for [N = 2] draws the key 3 first; both are [2*N-1], which the
    half-open range leaves out. *)
Lemma key_at_upper_bound_drawn :
  (∃ r w,
     visit_tester_run (G := Z) regular_visitor.visitor (dataset 1) 1 = Some (r, w)
     ∧ drawn w = [1] ∧ ¬ (1 ≤ 2 * 1 - 2))
  ∧ (∃ r w,
       visit_tester_run (G := Z) (bulk_visitor.visitor []) (dataset 2) 2 = Some (r, w)
       ∧ drawn w = [3; 1] ∧ ¬ (3 ≤ 2 * 2 - 2)).
Proof.
  split; eexists _, _; (split; [vm_compute; reflexivity|]);
    (split; [reflexivity|lia]).
Qed.

Lemma drawn_keys_in_closed_range_witness :
  (∃ r w,
     visit_tester_run (G := Z) regular_visitor.visitor (dataset 100) 100 = Some (r, w)
     ∧ length (drawn w) = Z.to_nat 100
     ∧ Forall (λ k, 0 ≤ k ≤ 2 * 100 - 1) (drawn w))
  ∧ (∃ r w,
       visit_tester_run (G := Z) (bulk_visitor.visitor []) (dataset 100) 100 = Some (r, w)
       ∧ length (drawn w) = Z.to_nat 100
       ∧ Forall (λ k, 0 ≤ k ≤ 2 * 100 - 1) (drawn w)).
Proof.
  apply (drawn_keys_in_closed_range (G := Z) [] (dataset 100) 100).
  - apply downscaling_draw_range.
  - change (0 < 16)%nat. lia.
  - lia.
Defined.

Lemma same_key_sequence_witness :
  length (key_sequence (G := Z) 100) = Z.to_nat 100
  ∧ (∀ m : concurrent_flat_map.t, ∃ r w,
       visit_tester_run (G := Z) regular_visitor.visitor m 100 = Some (r, w)
       ∧ drawn w = key_sequence 100)
  ∧ (∀ junk (m : concurrent_flat_map.t), ∃ r w,
       visit_tester_run (G := Z) (bulk_visitor.visitor junk) m 100 = Some (r, w)
       ∧ drawn w = key_sequence 100).
Proof.
  apply (same_key_sequence (G := Z) (M := concurrent_flat_map.t) 100).
  - change (0 < 16)%nat. lia.
  - lia.
Defined.

(** C6, as stated, fails at its last part: with a nanosecond clock, a
    trial of 19 runs that ends exactly 200 ms after its start records the
    average [0.2/19] as a double, and 19 times that double is below 200 ms,
    whether the product is taken exactly or as a double. *)
Lemma trial_product_below_min_time :
  ∃ tr st',
    one_trial stepping_clock nanoseconds idle 100 (Timer 0 0 0) = Some (tr, st')
    ∧ runs tr = 19
    ∧ elapsed tr = 200000000
    ∧ Prim2SF (average tr) = S754_finite false 6068007918983405 (-59)
    ∧ 19 * 6068007918983405 * 5 < 2 ^ 59
    ∧ (double_of_Z (runs tr) * average tr
       <? double_of_Z min_time_per_trial / 1000)%float = true.
Proof.
  eexists _, _. split; [vm_compute; reflexivity|].
  split_and!; [reflexivity|reflexivity|vm_compute; reflexivity|lia
              |vm_compute; reflexivity].
Qed.

Lemma trial_runs_until_min_time_witness :
  ∃ tr st',
    one_trial stepping_clock nanoseconds idle 100 (Timer 0 0 0) = Some (tr, st')
    ∧ 1 ≤ runs tr
    ∧ Z.of_nat (length (stored tr)) = runs tr
    ∧ min_time_per_trial * nanoseconds ≤ elapsed tr * 1000
    ∧ elapsed tr = stepping_clock (pred (reads st')) - measure_start st'
    ∧ average tr
      = (double_of_Z (elapsed tr) / double_of_Z nanoseconds
         / double_of_Z (runs tr))%float.
Proof.
  destruct (trial_runs_until_min_time stepping_clock nanoseconds idle 100
              (Timer 0 0 0)) as [Hreturns Hterminates].
  - unfold int_max. lia.
  - destruct (Hterminates 18%nat) as [[tr st'] Hrun].
    + intros s. by exists tt.
    + lia.
    + vm_compute. discriminate.
    + exists tr, st'. split; [exact Hrun|]. by apply Hreturns.
Defined.

Lemma resume_excludes_paused_interval_witness :
  measure_pause (Timer 3 50 200) = 200
  ∧ measure_start (Timer 3 50 200) = 50
  ∧ ∃ resumed,
      resume_timing (λ n, 100 * Z.of_nat n) (Timer 7 50 200) = Some (tt, resumed)
      ∧ measure_start resumed = 50 + (700 - 200)
      ∧ ∀ t, t - measure_start resumed = (t - 50) - (700 - 200).
Proof.
  apply (resume_excludes_paused_interval (λ n, 100 * Z.of_nat n)
           (Timer 2 50 0) (Timer 7 50 200) (Timer 3 50 200));
    reflexivity.
Defined.

Lemma cursor_in_bounds_witness :
  ∃ v' w',
    apply_ops (G := Z) (bulk_visitor.visitor [])
      ([OpFlush; OpFlush] ++ replicate 17 OpCall ++ [OpFlush; OpCall])
      (bulk_visitor.make [] (dataset 10) (uniform_int_distribution 0 19))
      (World (splitmix64_urng seed) [] []) = Some (v', w')
    ∧ (0 ≤ bulk_visitor.i v' < bulk_visitor.N (M := concurrent_flat_map.t))%nat
    ∧ length (bulk_visitor.keys v') = bulk_visitor.N (M := concurrent_flat_map.t).
Proof.
  apply (cursor_in_bounds (G := Z) [] (dataset 10) (uniform_int_distribution 0 19)).
  change (0 < 16)%nat. lia.
Defined.

Lemma count_nondecreasing_and_bounded_witness :
  res_nondecreasing (G := Z) regular_visitor.visitor
    (regular_visitor.make (dataset 20) (uniform_int_distribution 0 39))
    (World (splitmix64_urng seed) [] []) 20
  ∧ res_nondecreasing (G := Z) (bulk_visitor.visitor [])
      (bulk_visitor.make [] (dataset 20) (uniform_int_distribution 0 39))
      (World (splitmix64_urng seed) [] []) 20.
Proof.
  apply (count_nondecreasing_and_bounded (G := Z)
           flat_map_visit_01 flat_map_visit_range_le).
  - change (0 < 16)%nat. lia.
  - unfold int_max. lia.
Defined.

(** * Further properties of the harness *)

(** ** Functions the further statements are written with *)

(** The keys the logged calls handed to the container, in order. *)
Definition visited (cs : list visit_call) : list Z := concat (call_keys <$> cs).

(** How many of the operations are calls of [operator()]. *)
Fixpoint count_calls (os : list visitor_op) : nat :=
  match os with
  | [] => 0
  | OpCall :: os' => S (count_calls os')
  | OpFlush :: os' => count_calls os'
  end.

(** How many of the keys [ks] are below [N]. *)
Definition hits_below (N : Z) (ks : list Z) : Z :=
  Z.of_nat (length (filter (λ k, k < N) ks)).

(** ** What the strategies hand to the container *)

Lemma visited_snoc cs c : visited (cs ++ [c]) = visited cs ++ call_keys c.
Proof.
  unfold visited. rewrite fmap_app, concat_app. cbn. by rewrite app_nil_r.
Qed.

Lemma count_calls_cons o os :
  count_calls (o :: os)
  = (match o with OpCall => 1 | OpFlush => 0 end + count_calls os)%nat.
Proof. by destruct o. Qed.

Section Handed.
Context {G M : Type} `{!UniformInt G} `{!BulkVisitMap M}.

Local Abbreviation C := (bulk_visitor.N (M := M)).

Lemma regular_apply_ops os (v : regular_visitor.t M) (w : world G) :
  ∃ v' w', apply_ops regular_visitor.visitor os v w = Some (v', w')
    ∧ (∃ ks, drawn w' = drawn w ++ ks
         ∧ calls w' = calls w ++ (VisitKey <$> ks)
         ∧ length ks = count_calls os).
Proof.
  revert v w. induction os as [|o os IH]; intros v w.
  - exists v, w. split; [done|]. exists []. by rewrite !app_nil_r.
  - cbn [apply_ops]. unfold pbind. rewrite count_calls_cons.
    destruct o; cbn [apply_op vcall vflush regular_visitor.visitor].
    + rewrite regular_call_eq. destruct (uniform_int _ _ _) as [k g'].
      destruct (IH (regular_visitor.mk
                      (wrap_int (regular_visitor.res v
                                 + wrap_int (visit (regular_visitor.m v) k)))
                      (regular_visitor.m v) (regular_visitor.dist v))
                   (World g' (drawn w ++ [k]) (calls w ++ [VisitKey k])))
        as (v' & w' & -> & ks & Hd & Hc & Hl).
      exists v', w'. split; [done|]. exists (k :: ks).
      cbn [drawn calls] in *. rewrite Hd, Hc, <- !app_assoc. cbn. by rewrite Hl.
    + unfold regular_visitor.flush, pret. apply IH.
Qed.

(** X4. The single-key strategy, through any sequence of calls of
    [operator()] and [flush] on a new visitor: every key drawn is handed
    to the container at once, by a visit of that key alone, so the calls
    made are the visits of the keys drawn, one for one and in the order
    drawn; [flush] draws nothing and makes no call. *)
Theorem regular_one_call_per_key (m : M) (d : distribution_type)
    (os : list visitor_op) (g : G) :
  ∃ v' w', apply_ops regular_visitor.visitor os (regular_visitor.make m d)
                     (World g [] []) = Some (v', w')
    ∧ calls w' = VisitKey <$> drawn w'
    ∧ length (drawn w') = count_calls os.
Proof.
  destruct (regular_apply_ops os (regular_visitor.make m d) (World g [] []))
    as (v' & w' & Hrun & ks & Hd & Hc & Hl).
  exists v', w'. cbn [drawn calls app] in *. by rewrite Hc, Hd.
Qed.

Lemma bulk_apply_ops_accounted junk os (v : bulk_visitor.t M) (w : world G) :
  bulk_wf v →
  visited (calls w) ++ pending v = drawn w →
  Forall (λ c, (length (call_keys c) ≤ C)%nat) (calls w) →
  ∃ v' w', apply_ops (bulk_visitor.visitor junk) os v w = Some (v', w')
    ∧ bulk_wf v'
    ∧ visited (calls w') ++ pending v' = drawn w'
    ∧ Forall (λ c, (length (call_keys c) ≤ C)%nat) (calls w')
    ∧ length (drawn w') = (length (drawn w) + count_calls os)%nat.
Proof.
  revert v w. induction os as [|o os IH]; intros v w Hwf Hacc Hle.
  - exists v, w. split_and!; try done; cbn; lia.
  - cbn [apply_ops]. unfold pbind. rewrite count_calls_cons.
    pose proof (pending_length v Hwf) as Hpl.
    destruct o; cbn [apply_op vcall vflush bulk_visitor.visitor].
    + rewrite bulk_call_eq by done. destruct (uniform_int _ _ _) as [k g'].
      cbv zeta. destruct Hwf as [Hi Hk].
      assert (Hl : length (pending v ++ [k]) = S (bulk_visitor.i v))
        by (rewrite length_app, Hpl; cbn; lia).
      case_decide as Hfull.
      * match goal with |- context [apply_ops _ os ?v1 ?w1] =>
          destruct (IH v1 w1) as (v' & w' & -> & Hwf' & Hacc' & Hle' & Hlen')
        end.
        { split; cbn [bulk_visitor.i bulk_visitor.keys];
            [lia|by rewrite length_insert]. }
        { cbn [drawn calls]. rewrite visited_snoc. cbn [call_keys].
          unfold pending at 2. cbn [bulk_visitor.i take].
          by rewrite app_nil_r, app_assoc, Hacc. }
        { cbn [calls]. apply Forall_app. split; [done|].
          constructor; [|done]. cbn [call_keys]. lia. }
        exists v', w'. split_and!; try done.
        cbn [drawn] in Hlen'. rewrite length_app in Hlen'. cbn in Hlen'. lia.
      * match goal with |- context [apply_ops _ os ?v1 ?w1] =>
          destruct (IH v1 w1) as (v' & w' & -> & Hwf' & Hacc' & Hle' & Hlen')
        end.
        { split; cbn [bulk_visitor.i bulk_visitor.keys];
            [lia|by rewrite length_insert]. }
        { cbn [drawn calls]. unfold pending at 1.
          cbn [bulk_visitor.i bulk_visitor.keys].
          rewrite (pending_insert v k) by done.
          by rewrite app_assoc, Hacc. }
        { done. }
        exists v', w'. split_and!; try done.
        cbn [drawn] in Hlen'. rewrite length_app in Hlen'. cbn in Hlen'. lia.
    + rewrite bulk_flush_eq.
      match goal with |- context [apply_ops _ os ?v1 ?w1] =>
        destruct (IH v1 w1) as (v' & w' & -> & Hwf' & Hacc' & Hle' & Hlen')
      end.
      { destruct Hwf as [Hi Hk].
        split; cbn [bulk_visitor.i bulk_visitor.keys]; [lia|done]. }
      { cbn [drawn calls]. rewrite visited_snoc. cbn [call_keys].
        unfold pending at 2. cbn [bulk_visitor.i take].
        by rewrite app_nil_r. }
      { cbn [calls]. apply Forall_app. split; [done|].
        constructor; [|done]. cbn [call_keys]. destruct Hwf. lia. }
      exists v', w'. split_and!; try done.
Qed.

(** X5. The batched strategy, through any sequence of calls of
    [operator()] and [flush] on a new visitor with a positive batch size:
    the keys handed to the container so far, followed by the keys still
    in the buffer, are the keys drawn, in the order drawn; no key is
    handed over twice, dropped or reordered; and no call hands over more
    than [N] keys. *)
Theorem batched_keys_accounted junk (m : M) (d : distribution_type)
    (os : list visitor_op) (g : G) :
  (0 < C)%nat →
  ∃ v' w', apply_ops (bulk_visitor.visitor junk) os
                     (bulk_visitor.make junk m d) (World g [] []) = Some (v', w')
    ∧ visited (calls w') ++ pending v' = drawn w'
    ∧ length (drawn w') = count_calls os
    ∧ Forall (λ c, (length (call_keys c) ≤ C)%nat) (calls w').
Proof.
  intros HC.
  destruct (bulk_apply_ops_accounted junk os (bulk_visitor.make junk m d)
              (World g [] [])) as (v' & w' & Hrun & _ & Hacc & Hle & Hlen);
    [by apply bulk_make_wf|done|constructor|].
  exists v', w'. split_and!; done.
Qed.
End Handed.

(** ** The runs of [visit_tester], in full *)

Section FullRuns.
Context {G M : Type} `{!SplitMix64 G} `{!UniformInt G} `{!BulkVisitMap M}.

Local Abbreviation C := (bulk_visitor.N (M := M)).

(** The run of the batched strategy, with the world it leaves. *)
Lemma bulk_run_full junk (m : M) (N : Z) :
  (0 < C)%nat →
  let dk := draw_keys 0 (wrap_int (2 * N - 1)) (Z.to_nat N)
                      (splitmix64_urng (G := G) seed) in
  let fd := feed C [] dk.1 in
  visit_tester_run (bulk_visitor.visitor junk) m N
  = Some (to_size_t
            (wrap_int (foldl (λ r b, wrap_int (r + wrap_int (visit_range m b))) 0 fd.1
                       + wrap_int (visit_range m fd.2))),
          World dk.2 dk.1 ((VisitRange <$> fd.1) ++ [VisitRange fd.2])).
Proof.
  intros HC dk fd.
  unfold visit_tester_run, visit_tester_body.
  cbn [vmake bulk_visitor.visitor].
  set (v0 := bulk_visitor.make junk m _).
  set (w0 := World _ _ _).
  assert (Hwf : bulk_wf v0) by (by apply bulk_make_wf).
  destruct (bulk_drive junk (Z.to_nat N) v0 w0 Hwf) as (v' & Hrun & Hwf' & Hi' & Hr').
  unfold drive in Hrun. cbn [vcall vflush bulk_visitor.visitor] in Hrun.
  unfold pbind in *. cbn [vcall vflush vres bulk_visitor.visitor].
  destruct (repeat_prog _ _ _ _) as [[v1 w1]|]; [|done].
  rewrite Hrun. unfold pret. by rewrite Hr'.
Qed.

(** X6. The array [keys] of the batched visitor is not initialised, and
    what it holds at first never matters: for a positive batch size, the
    run of [visit_tester] returns, and the value it returns, the keys it
    draws and the calls it makes on the container are the same whatever
    the array held. *)
Theorem uninitialised_keys_never_read junk1 junk2 (m : M) (N : Z) :
  (0 < C)%nat →
  is_Some (visit_tester_run (G := G) (bulk_visitor.visitor junk1) m N)
  ∧ visit_tester_run (G := G) (bulk_visitor.visitor junk1) m N
    = visit_tester_run (G := G) (bulk_visitor.visitor junk2) m N.
Proof.
  intros HC. rewrite !bulk_run_full by done. split; [eauto|done].
Qed.

(** Under the contract that the visit of a range counts what the visits
    of its keys count, both runs return the wrapped sum of the counts of
    the keys drawn. *)
Lemma regular_result (m : M) (N : Z) :
  visit_tester (G := G) regular_visitor.visitor m N
  = Some (to_size_t (wrap_int (sumZ (visit m <$> key_sequence N)))).
Proof.
  unfold visit_tester. by destruct (regular_run (G := G) m N) as (g1 & ->).
Qed.

Lemma bulk_result junk (m : M) (N : Z) :
  (∀ (m : M) ks, visit_range m ks = sumZ (visit m <$> ks)) →
  (0 < C)%nat →
  visit_tester (G := G) (bulk_visitor.visitor junk) m N
  = Some (to_size_t (wrap_int (sumZ (visit m <$> key_sequence N)))).
Proof.
  intros Hsum HC. unfold visit_tester. rewrite bulk_run_full by done.
  cbn [fmap option_fmap option_map fst]. do 2 f_equal.
  rewrite wrap_int_add_r, <- wrap_int_add_l, foldl_wrap_sum, wrap_int_add_l.
  f_equal. rewrite Z.add_0_l.
  rewrite (list_fmap_ext (visit_range m) (λ l, sumZ (visit m <$> l)))
    by (intros; apply Hsum).
  rewrite sumZ_concat, Hsum, <- sumZ_app, <- fmap_app, feed_concat.
  done.
Qed.
End FullRuns.

(** ** The dataset of the driver *)

Lemma dataset_lookup (N k : Z) :
  concurrent_flat_map.table (dataset N) !! k
  = if decide (0 ≤ k < N) then Some k else None.
Proof.
  pose proof (dataset_after (to_size_t N) (Z.to_nat N)) as (Hl & _ & _).
  unfold dataset. destruct (decide (0 ≤ N)) as [HN|HN].
  - rewrite Z2Nat.id in Hl by done. apply Hl.
  - replace (Z.to_nat N) with 0%nat in Hl by lia.
    replace (seqZ 0 N) with (@nil Z); [|unfold seqZ; by replace (Z.to_nat N) with 0%nat by lia].
    change (seqZ 0 (Z.of_nat 0)) with (@nil Z) in Hl. rewrite Hl.
    repeat case_decide; try done; lia.
Qed.

(** X11. The loop of the driver that fills the container, for any [N]:
    it leaves exactly the entries [i -> i] for [0 <= i < N], [N] of them;
    a key outside that range is missing, and for [N <= 0] the container
    is empty. *)
Theorem dataset_holds_exactly_0_to_N (N : Z) :
  (∀ k, concurrent_flat_map.table (dataset N) !! k
        = if decide (0 ≤ k < N) then Some k else None)
  ∧ size (concurrent_flat_map.table (dataset N)) = Z.to_nat N
  ∧ (∀ k, visit (dataset N) k = if decide (0 ≤ k < N) then 1 else 0).
Proof.
  split_and!.
  - apply dataset_lookup.
  - pose proof (dataset_after (to_size_t N) (Z.to_nat N)) as (_ & Hs & _).
    unfold dataset. destruct (decide (0 ≤ N)) as [HN|HN].
    + by rewrite Z2Nat.id in Hs by done.
    + replace (seqZ 0 N) with (@nil Z);
        [|unfold seqZ; by replace (Z.to_nat N) with 0%nat by lia].
      cbn. rewrite map_size_empty. lia.
  - intros k. cbn. unfold concurrent_flat_map.visit. rewrite dataset_lookup.
    by case_decide.
Qed.

Lemma visit_dataset (N k : Z) :
  visit (dataset N) k = if decide (0 ≤ k < N) then 1 else 0.
Proof.
  cbn. unfold concurrent_flat_map.visit. rewrite dataset_lookup. by case_decide.
Qed.

Lemma sumZ_visit_dataset (N : Z) (ks : list Z) :
  Forall (λ k, 0 ≤ k) ks →
  sumZ (visit (dataset N) <$> ks) = hits_below N ks.
Proof.
  unfold hits_below. induction 1 as [|k ks Hk Hks IH]; [done|].
  rewrite fmap_cons, sumZ_cons, IH, visit_dataset, filter_cons.
  repeat case_decide; cbn [length]; lia.
Qed.

Lemma hits_below_le (N : Z) (ks : list Z) :
  0 ≤ hits_below N ks ≤ Z.of_nat (length ks).
Proof.
  unfold hits_below. pose proof (length_filter (λ k, k < N) ks). lia.
Qed.

(** X7. On the dataset the driver builds for [N], with [1 <= N <= 2^30]
    and a distribution that keeps within its bounds, the value the timed
    operation returns is the number of keys among the [N] drawn that are
    below [N]: for the single-key strategy and for the batched one. *)
Theorem hits_on_dataset {G} `{!SplitMix64 G} `{!UniformInt G} junk (N : Z) :
  (∀ a b (g : G), a ≤ b → a ≤ (uniform_int a b g).1 ≤ b) →
  1 ≤ N ≤ 2 ^ 30 →
  visit_tester (G := G) regular_visitor.visitor (dataset N) N
  = Some (hits_below N (key_sequence N))
  ∧ visit_tester (G := G) (bulk_visitor.visitor junk) (dataset N) N
    = Some (hits_below N (key_sequence N))
  ∧ 0 ≤ hits_below N (key_sequence (G := G) N) ≤ N.
Proof.
  intros Hrange HN.
  assert (Hks : Forall (λ k, 0 ≤ k) (key_sequence (G := G) N)).
  { unfold key_sequence. rewrite wrap_int_small by (unfold int_min, int_max; lia).
    eapply Forall_impl; [apply draw_keys_range|].
    - intros g. apply Hrange. lia.
    - cbn. intros; lia. }
  assert (Hlen : length (key_sequence (G := G) N) = Z.to_nat N)
    by apply draw_keys_length.
  pose proof (hits_below_le N (key_sequence (G := G) N)) as Hle.
  assert (Hfit : to_size_t (wrap_int (hits_below N (key_sequence (G := G) N)))
                 = hits_below N (key_sequence N)).
  { rewrite wrap_int_small by (unfold int_min, int_max; lia).
    unfold to_size_t. apply Z.mod_small. lia. }
  split; [|split; [|lia]].
  - by rewrite regular_result, sumZ_visit_dataset, Hfit.
  - rewrite bulk_result; [|apply flat_map_visit_range_sum|change (0 < 16)%nat; lia].
    by rewrite sumZ_visit_dataset, Hfit.
Qed.

Lemma sumZ_visit_seqZ (N a n : Z) :
  0 ≤ a → 0 ≤ n →
  sumZ (visit (dataset N) <$> seqZ a n)
  = Z.max 0 (Z.min (a + n) N - a).
Proof.
  intros Ha Hn. rewrite <- (Z2Nat.id n) by done.
  induction (Z.to_nat n) as [|i IH].
  { change (seqZ a (Z.of_nat 0)) with (@nil Z). rewrite fmap_nil.
    change (sumZ []) with 0. lia. }
  rewrite seqZ_S, fmap_app, sumZ_app, IH.
  change (sumZ (visit (dataset N) <$> [a + Z.of_nat i]))
    with (visit (dataset N) (a + Z.of_nat i) + 0).
  rewrite visit_dataset. case_decide; lia.
Qed.

(** X8. Of the [2*N] values from [0] to [2*N-1] that the distribution of
    a run is built for, exactly [N] are keys of the dataset the driver
    builds for [N]: a visit of each of them in turn counts [N]. *)
Theorem half_of_range_present (N : Z) :
  0 ≤ N →
  sumZ (visit (dataset N) <$> seqZ 0 (2 * N - 1 + 1)) = N.
Proof.
  intros HN. rewrite sumZ_visit_seqZ by lia. lia.
Qed.

(** ** More on the timing engine *)

(** A clock that advances between any two readings. *)
Definition strictly_increasing (clock : nat → Z) : Prop :=
  ∀ n, clock n < clock (S n).

(** A candidate that returns and leaves the timer as it found it. *)
Definition leaves_timer_alone {A} (f : prog timer A) : Prop :=
  ∀ s, ∃ a, f s = Some (a, s).

(** A number of readings after which a clock that advances by a tick or
    more at each reading has advanced by 200 ms. *)
Definition readings_for_min_time (ticks_per_second : Z) : nat :=
  Z.to_nat (ticks_per_second / 5).

(** Trials made one after the other: each starts in the state in which
    the one before ended. *)
Fixpoint successive_trials {A} (clock : nat → Z) (ticks_per_second : Z)
    (f : prog timer A) (fuel : nat) (st : timer) (trs : list (trial A))
    (st' : timer) : Prop :=
  match trs with
  | [] => st' = st
  | tr :: trs' =>
      ∃ s, one_trial clock ticks_per_second f fuel st = Some (tr, s)
           ∧ successive_trials clock ticks_per_second f fuel s trs' st'
  end.

(** What the driver times in the round of a size [N]: first the one and
    then the other strategy, each bound to the dataset of the size. *)
Definition round_events (N : Z) : list driver_event :=
  [Timed 1 (dataset N) N; Timed 2 (dataset N) N].

(** The size a line of the output is for. *)
Definition line_size (l : line) : option Z :=
  match l with
  | Row N _ _ => Some N
  | _ => None
  end.

(** X9. The value the trials are reduced to does not depend on the order
    in which they were recorded: two arrangements of the same positive
    trial averages give the same double, although the sum of doubles
    depends on the order of its terms. *)
Theorem trimmed_mean_order_independent (trials1 trials2 : list float) :
  Forall positive_double trials1 →
  trials1 ≡ₚ trials2 →
  trimmed_mean trials1 = trimmed_mean trials2.
Proof.
  intros Hpos Hperm. unfold trimmed_mean.
  by rewrite (sort_of_permutation _ _ Hpos Hperm).
Qed.

Section MoreTiming.
Variable clock : nat → Z.
Variable ticks_per_second : Z.

Lemma pause_timing_eq (st : timer) :
  pause_timing clock st
  = Some (tt, Timer (S (reads st)) (measure_start st) (clock (reads st))).
Proof. reflexivity. Qed.

Lemma resume_timing_eq (st : timer) :
  resume_timing clock st
  = Some (tt, Timer (S (reads st))
                    (measure_start st + (clock (reads st) - measure_pause st))
                    (measure_pause st)).
Proof. reflexivity. Qed.

Lemma pauses_in_a_row k (st : timer) :
  repeat_prog (S k) (λ _, pause_timing clock) tt st
  = Some (tt, Timer (reads st + S k) (measure_start st) (clock (reads st + k))).
Proof.
  revert st. induction k as [|k IH]; intros st.
  - cbn [repeat_prog]. unfold pbind. rewrite pause_timing_eq. unfold pret.
    do 3 f_equal; [lia|f_equal; lia].
  - change (repeat_prog (S (S k)) (λ _, pause_timing clock) tt st)
      with (pbind (pause_timing clock)
              (λ _, repeat_prog (S k) (λ _, pause_timing clock) tt) st).
    unfold pbind. rewrite pause_timing_eq, IH. cbn [reads measure_start].
    do 3 f_equal; [lia|f_equal; lia].
Qed.

Lemma resumes_in_a_row k (st : timer) :
  repeat_prog k (λ _, resume_timing clock) tt st
  = Some (tt, Timer (reads st + k)
                    (measure_start st
                     + sumZ ((λ j, clock (reads st + j) - measure_pause st)
                             <$> seq 0 k))
                    (measure_pause st)).
Proof.
  revert st. induction k as [|k IH]; intros st.
  - cbn. unfold pret. destruct st as [n s p]. cbn. do 3 f_equal; lia.
  - cbn [repeat_prog]. unfold pbind. rewrite resume_timing_eq, IH.
    cbn [reads measure_start measure_pause].
    rewrite <- cons_seq, fmap_cons, sumZ_cons, <- fmap_S_seq, <- list_fmap_compose.
    do 3 f_equal; [lia|].
    rewrite Nat.add_0_r, <- Z.add_assoc. do 3 f_equal.
    apply list_fmap_ext. intros _ j _. cbn. do 2 f_equal. lia.
Qed.

(** X3. Pauses do not nest and are not counted. After any number of
    calls of [pause_timing] in a row, [resume_timing] leaves out only the
    time since the last of them: the earlier pause points are lost. And
    every [resume_timing] after one [pause_timing] leaves out the whole
    time since that pause again: after [k] of them the origin has moved
    by the sum of the [k] intervals from the pause to each resume. *)
Theorem pauses_do_not_nest (k : nat) (st : timer) :
  let n := reads st in
  let s := measure_start st in
  (let* _ := repeat_prog (S k) (λ _, pause_timing clock) tt in
   resume_timing clock)%prog st
  = Some (tt, Timer (n + S k + 1)
                    (s + (clock (n + S k) - clock (n + k)))
                    (clock (n + k)))
  ∧ (let* _ := pause_timing clock in
     repeat_prog k (λ _, resume_timing clock) tt)%prog st
    = Some (tt, Timer (n + 1 + k)
                      (s + sumZ ((λ j, clock (n + 1 + j) - clock n) <$> seq 0 k))
                      (clock n)).
Proof.
  intros n s. split.
  - unfold pbind. rewrite pauses_in_a_row, resume_timing_eq.
    cbn [reads measure_start measure_pause]. subst n s.
    do 3 f_equal. lia.
  - unfold pbind. rewrite pause_timing_eq, resumes_in_a_row.
    cbn [reads measure_start measure_pause]. subst n s.
    do 3 f_equal; [lia|]. do 2 f_equal.
    apply list_fmap_ext. intros _ j _. cbn. do 2 f_equal; lia.
Qed.

Lemma increasing_gap n j :
  strictly_increasing clock → clock n + Z.of_nat j ≤ clock (n + j).
Proof.
  intros Hinc. induction j as [|j IH].
  - rewrite Nat.add_0_r. lia.
  - replace (n + S j)%nat with (S (n + j)) by lia.
    specialize (Hinc (n + j)%nat). lia.
Qed.

Lemma reaches_min_time n :
  strictly_increasing clock →
  ¬ before_min_time ticks_per_second
      (clock (S n + readings_for_min_time ticks_per_second) - clock n).
Proof.
  intros Hinc. unfold before_min_time, readings_for_min_time, min_time_per_trial.
  pose proof (increasing_gap n (S (Z.to_nat (ticks_per_second / 5))) Hinc) as Hgap.
  replace (n + S (Z.to_nat (ticks_per_second / 5)))%nat
    with (S n + Z.to_nat (ticks_per_second / 5))%nat in Hgap by lia.
  pose proof (Z.mod_pos_bound ticks_per_second 5 ltac:(lia)).
  pose proof (Z.div_mod ticks_per_second 5 ltac:(lia)).
  lia.
Qed.

Section Candidate.
Context {A : Type}.
Variable f : prog timer A.
Hypothesis f_alone : leaves_timer_alone f.

(** The loop of a trial, for a candidate that leaves the timer alone:
    it stops at the first reading that reaches the minimum time. *)
Lemma trial_loop_alone fuel runs0 stored0 st runs stored t2 st' :
  trial_loop clock ticks_per_second f fuel runs0 stored0 st
  = Some ((runs, stored, t2), st') →
  ∃ k : nat,
    (1 ≤ k ≤ fuel)%nat
    ∧ runs = wrap_int (runs0 + Z.of_nat k)
    ∧ st' = Timer (reads st + k) (measure_start st) (measure_pause st)
    ∧ t2 = clock (reads st + k - 1)
    ∧ (∀ j, (j < k - 1)%nat →
         before_min_time ticks_per_second (clock (reads st + j) - measure_start st))
    ∧ ¬ before_min_time ticks_per_second (t2 - measure_start st).
Proof.
  revert runs0 stored0 st. induction fuel as [|fuel IH]; intros runs0 stored0 st; [done|].
  cbn [trial_loop]. unfold pbind at 1.
  destruct (f_alone st) as [res ->].
  unfold pbind at 1. rewrite now_eq. unfold pbind at 1, pget at 1.
  cbn [measure_start].
  case_decide as Hbefore.
  - intros Hrun. destruct (IH _ _ _ Hrun) as (k & Hk & -> & -> & -> & Hearly & Hmin).
    cbn [reads measure_start measure_pause] in *.
    exists (S k). split_and!; [lia|lia| | | | |].
    + rewrite wrap_int_add_l. f_equal. lia.
    + f_equal. lia.
    + f_equal. lia.
    + intros j Hj. destruct j as [|j].
      * by rewrite Nat.add_0_r.
      * replace (reads st + S j)%nat with (S (reads st) + j)%nat by lia.
        apply Hearly. lia.
    + done.
  - unfold pret. intros [= <- <- <- <-].
    exists 1%nat. split_and!; [lia|lia|done| | | |].
    + f_equal. lia.
    + f_equal. lia.
    + intros j Hj. lia.
    + by replace (reads st + 1 - 1)%nat with (reads st) by lia.
Qed.

Lemma one_trial_alone fuel st tr st' :
  Z.of_nat fuel ≤ int_max →
  one_trial clock ticks_per_second f fuel st = Some (tr, st') →
  ∃ k : nat,
    (1 ≤ k ≤ fuel)%nat
    ∧ runs tr = Z.of_nat k
    ∧ elapsed tr = clock (reads st + k) - clock (reads st)
    ∧ st' = Timer (reads st + 1 + k) (clock (reads st)) (measure_pause st)
    ∧ (∀ j, (1 ≤ j < k)%nat →
         before_min_time ticks_per_second
           (clock (reads st + j) - clock (reads st)))
    ∧ ¬ before_min_time ticks_per_second
          (clock (reads st + k) - clock (reads st)).
Proof.
  intros Hfuel. unfold one_trial.
  unfold pbind at 1. rewrite now_eq.
  unfold pbind at 1, pmodify at 1. unfold pbind at 1.
  destruct (trial_loop _ _ _ _ _ _ _) as [[[[n vs] t2] s1]|] eqn:Hloop; [|done].
  unfold pbind, pget, pret. intros [= <- <-].
  cbn [runs stored elapsed average].
  destruct (trial_loop_alone _ _ _ _ _ _ _ _ Hloop)
    as (k & Hk & -> & -> & -> & Hearly & Hmin).
  cbn [reads measure_start measure_pause] in *.
  replace (S (reads st) + k - 1)%nat with (reads st + k)%nat in * by lia.
  exists k. split_and!; [lia|lia| |done| | |done].
  - rewrite Z.add_0_l. apply wrap_int_small. unfold int_min, int_max in *. lia.
  - f_equal. lia.
  - intros j Hj. replace (reads st + j)%nat with (S (reads st) + (j - 1))%nat by lia.
    apply Hearly. lia.
Qed.


Lemma run_trials_alone n fuel st :
  strictly_increasing clock →
  (readings_for_min_time ticks_per_second < fuel)%nat →
  ∃ avgs st',
    run_trials clock ticks_per_second f n fuel st = Some (avgs, st')
    ∧ length avgs = n.
Proof.
  intros Hinc Hfuel. revert st. induction n as [|n IH]; intros st.
  - by exists [], st.
  - cbn [run_trials]. unfold pbind at 1.
    destruct (one_trial_terminates clock ticks_per_second f
                (readings_for_min_time ticks_per_second) fuel st)
      as [[tr s1] ->]; [exact f_alone|done|by apply reaches_min_time|].
    unfold pbind at 1. destruct (IH s1) as (avgs & st' & -> & Hlen).
    unfold pret. exists (average tr :: avgs), st'. split; [done|].
    cbn. by rewrite Hlen.
Qed.

Lemma run_trials_successive n fuel st :
  strictly_increasing clock →
  (readings_for_min_time ticks_per_second < fuel)%nat →
  ∃ trs st',
    run_trials clock ticks_per_second f n fuel st = Some (average <$> trs, st')
    ∧ successive_trials clock ticks_per_second f fuel st trs st'
    ∧ length trs = n.
Proof.
  intros Hinc Hfuel. revert st. induction n as [|n IH]; intros st.
  - by exists [], st.
  - cbn [run_trials]. unfold pbind at 1.
    destruct (one_trial_terminates clock ticks_per_second f
                (readings_for_min_time ticks_per_second) fuel st)
      as [[tr s1] Htr]; [exact f_alone|done|by apply reaches_min_time|].
    rewrite Htr.
    unfold pbind at 1. destruct (IH s1) as (trs & st' & -> & Hchain & Hlen).
    unfold pret. exists (tr :: trs), st'. split_and!; [done| |].
    + cbn [successive_trials]. by exists s1.
    + cbn. by rewrite Hlen.
Qed.

Lemma successive_trials_facts fuel st trs st' :
  Z.of_nat fuel ≤ int_max →
  successive_trials clock ticks_per_second f fuel st trs st' →
  Forall (λ tr,
    1 ≤ runs tr
    ∧ min_time_per_trial * ticks_per_second ≤ elapsed tr * 1000
    ∧ average tr
      = (double_of_Z (elapsed tr) / double_of_Z ticks_per_second
         / double_of_Z (runs tr))%float) trs.
Proof.
  intros Hint. revert st. induction trs as [|tr trs IH]; intros st Hchain.
  - constructor.
  - destruct Hchain as (s & Htr & Hchain). constructor; [|by eapply IH].
    destruct (one_trial_returns clock ticks_per_second f fuel st tr s Hint Htr)
      as (? & _ & ? & _ & ?).
    done.
Qed.

Lemma successive_trials_reads fuel st trs st' :
  Z.of_nat fuel ≤ int_max →
  successive_trials clock ticks_per_second f fuel st trs st' →
  Z.of_nat (reads st')
  = Z.of_nat (reads st) + Z.of_nat (length trs) + sumZ (runs <$> trs).
Proof.
  intros Hint. revert st. induction trs as [|tr trs IH]; intros st Hchain.
  - cbn in Hchain. subst st'. cbn. lia.
  - destruct Hchain as (s & Htr & Hchain).
    rewrite (IH s Hchain).
    destruct (one_trial_alone fuel st tr s Hint Htr)
      as (k & Hk & Hruns & _ & -> & _).
    rewrite fmap_cons, sumZ_cons, Hruns. cbn [reads length]. lia.
Qed.

Lemma successive_trials_pause fuel st trs st' :
  Z.of_nat fuel ≤ int_max →
  successive_trials clock ticks_per_second f fuel st trs st' →
  measure_pause st' = measure_pause st.
Proof.
  intros Hint. revert st. induction trs as [|tr trs IH]; intros st Hchain.
  - cbn in Hchain. by subst st'.
  - destruct Hchain as (s & Htr & Hchain).
    rewrite (IH s Hchain).
    by destruct (one_trial_alone fuel st tr s Hint Htr)
      as (k & _ & _ & _ & -> & _).
Qed.

(** X1. On a clock that advances between any two readings, [measure]
    returns for every candidate that leaves the timer alone, once each
    trial may take more rounds than the clock needs readings to advance
    by 200 ms. It has then made [num_trials = 10] trials, one after the
    other, each from the state the one before left: every one of them ran
    the candidate at least once, until 200 ms had elapsed by the clock,
    and read the clock once to start and once after each run. What
    [measure] returns is the trimmed mean of the averages of these ten
    trials, in the order they were made; the pause point is left as it
    was. *)
Theorem measure_returns_after_ten_trials fuel st :
  strictly_increasing clock →
  (readings_for_min_time ticks_per_second < fuel)%nat →
  Z.of_nat fuel ≤ int_max →
  ∃ trs st',
    successive_trials clock ticks_per_second f fuel st trs st'
    ∧ length trs = 10%nat
    ∧ measure clock ticks_per_second f fuel st
      = Some (trimmed_mean (average <$> trs), st')
    ∧ Forall (λ tr,
        1 ≤ runs tr
        ∧ min_time_per_trial * ticks_per_second ≤ elapsed tr * 1000
        ∧ average tr
          = (double_of_Z (elapsed tr) / double_of_Z ticks_per_second
             / double_of_Z (runs tr))%float) trs
    ∧ Z.of_nat (reads st') = Z.of_nat (reads st) + 10 + sumZ (runs <$> trs)
    ∧ measure_pause st' = measure_pause st.
Proof.
  intros Hinc Hfuel Hint.
  destruct (run_trials_successive num_trials fuel st Hinc Hfuel)
    as (trs & st' & Hrun & Hchain & Hlen).
  exists trs, st'. split_and!; [done|done| | | |].
  - unfold measure, pbind. by rewrite Hrun.
  - by eapply successive_trials_facts.
  - rewrite (successive_trials_reads fuel st trs st' Hint Hchain).
    rewrite Hlen. unfold num_trials. lia.
  - by eapply successive_trials_pause.
Qed.
End Candidate.
End MoreTiming.

(** ** The driver, from start to end *)

Lemma for_each_returns {S A B} (body : A → prog S B) (P : A → B → Prop)
    (l : list A) (s : S) :
  (∀ a s, ∃ b s', body a s = Some (b, s') ∧ P a b) →
  ∃ bs s', for_each body l s = Some (bs, s') ∧ Forall2 P l bs.
Proof.
  intros Hbody. revert s. induction l as [|a l IH]; intros s.
  - exists [], s. split; [done|constructor].
  - cbn [for_each]. unfold pbind at 1.
    destruct (Hbody a s) as (b & s1 & -> & HP).
    unfold pbind at 1. destruct (IH s1) as (bs & s' & -> & Hall).
    exists (b :: bs), s'. split; [done|by constructor].
Qed.

Section WholeDriver.
Context {G : Type} `{!SplitMix64 G} `{!UniformInt G}.
Variable clock : nat → Z.
Variable ticks_per_second : Z.
Hypothesis clock_increasing : strictly_increasing clock.

Lemma bound_tester_alone {V} (Vis : Visitor G concurrent_flat_map.t V) m N :
  is_Some (visit_tester Vis m N) →
  leaves_timer_alone (bound_tester Vis m N).
Proof.
  intros [r Hr] s. exists r. unfold bound_tester. by rewrite Hr.
Qed.

Lemma measure_bound_tester {V} (Vis : Visitor G concurrent_flat_map.t V)
    m N fuel st :
  is_Some (visit_tester Vis m N) →
  (readings_for_min_time ticks_per_second < fuel)%nat →
  is_Some (measure clock ticks_per_second (bound_tester Vis m N) fuel st).
Proof.
  intros Hsome Hfuel.
  destruct (run_trials_alone clock ticks_per_second (bound_tester Vis m N)
              (bound_tester_alone Vis m N Hsome) num_trials fuel st
              clock_increasing Hfuel) as (avgs & st' & Hrun & _).
  unfold measure, pbind. rewrite Hrun. by eexists.
Qed.

Lemma measure_bound_returns {V} which (Vis : Visitor G concurrent_flat_map.t V)
    m N fuel d :
  is_Some (visit_tester Vis m N) →
  (readings_for_min_time ticks_per_second < fuel)%nat →
  ∃ t d',
    measure_bound clock ticks_per_second which Vis m N fuel d = Some (t, d')
    ∧ events d' = events d ++ [Timed which m N].
Proof.
  intros Hsome Hfuel. unfold measure_bound, pbind, log_event, on_timer.
  cbn [clock_state events].
  destruct (measure_bound_tester Vis m N fuel (clock_state d) Hsome Hfuel)
    as [[t s] ->].
  by eexists _, _.
Qed.

Lemma visit_test_size_returns junk fuel N d :
  (readings_for_min_time ticks_per_second < fuel)%nat →
  ∃ l d',
    visit_test_size clock ticks_per_second
      regular_visitor.visitor (bulk_visitor.visitor junk) fuel N d
    = Some (l, d')
    ∧ (∃ t1 t2, l = Row N t1 t2)
    ∧ events d' = events d ++ round_events N.
Proof.
  intros Hfuel. unfold visit_test_size. cbv zeta. unfold pbind at 1.
  destruct (measure_bound_returns 1 regular_visitor.visitor (dataset N) N fuel d)
    as (t1 & d1 & -> & Hd1); [|done|].
  { rewrite regular_result. by eexists. }
  unfold pbind at 1.
  destruct (measure_bound_returns 2 (bulk_visitor.visitor junk) (dataset N) N fuel d1)
    as (t2 & d2 & -> & Hd2); [|done|].
  { rewrite bulk_result; [by eexists|apply flat_map_visit_range_sum
                         |change (0 < 16)%nat; lia]. }
  unfold pret. eexists _, _. split_and!; [reflexivity|by eexists _, _|].
  rewrite Hd2, Hd1. unfold round_events. by rewrite <-app_assoc.
Qed.

Lemma visit_test_rounds junk fuel (l : list Z) d :
  (readings_for_min_time ticks_per_second < fuel)%nat →
  ∃ rows d',
    for_each (visit_test_size clock ticks_per_second
                regular_visitor.visitor (bulk_visitor.visitor junk) fuel) l d
    = Some (rows, d')
    ∧ events d' = events d ++ concat (round_events <$> l).
Proof.
  intros Hfuel. revert d. induction l as [|N l IH]; intros d.
  - exists [], d. split; [done|]. cbn. by rewrite app_nil_r.
  - cbn [for_each]. unfold pbind at 1.
    destruct (visit_test_size_returns junk fuel N d Hfuel)
      as (r & d1 & -> & _ & Hd1).
    unfold pbind at 1. destruct (IH d1) as (rows & d' & -> & Hd').
    exists (r :: rows), d'. split; [done|].
    by rewrite Hd', Hd1, fmap_cons, concat_cons, <-app_assoc.
Qed.

(** C8. The driver takes the sizes 3000, 25000, 600000 and 10000000, in
    that order. On a clock that advances between any two readings, and
    with more rounds allowed to a trial than the clock needs readings to
    advance by 200 ms, [visit_test] returns, and what it has timed is,
    size after size in that order, the first and then the second
    strategy, both bound to the dataset of the size and to the size. When
    the timing of a size starts, the calls made on that dataset since it
    was constructed are: one [reserve] for [N] entries, and then the
    insertions of [{i,i}] for [i] from 0 up to [N], one after the other,
    and no other; it holds exactly the [N] keys [0 .. N-1], each mapped
    to itself, in the storage reserved before the first insertion. *)
Theorem datasets_built_before_timing junk fuel name1 name2 d :
  (readings_for_min_time ticks_per_second < fuel)%nat →
  sizes = [3000; 25000; 600000; 10000000]
  ∧ (∃ out d',
       visit_test clock ticks_per_second
         regular_visitor.visitor (bulk_visitor.visitor junk) fuel name1 name2 d
       = Some (out, d')
       ∧ events d'
         = events d
           ++ concat ((λ N, [Timed 1 (dataset N) N; Timed 2 (dataset N) N])
                      <$> sizes))
  ∧ Forall (λ N,
      concurrent_flat_map.history (dataset N)
      = concurrent_flat_map.Reserved N
        :: ((λ i, concurrent_flat_map.Inserted i i) <$> seqZ 0 N)
      ∧ concurrent_flat_map.reserved
          (concurrent_flat_map.reserve (to_size_t N) concurrent_flat_map.empty) = N
      ∧ (∀ k, concurrent_flat_map.table (dataset N) !! k
              = if decide (0 ≤ k < N) then Some k else None)
      ∧ Z.of_nat (size (concurrent_flat_map.table (dataset N))) = N
      ∧ concurrent_flat_map.reserved (dataset N) = N) sizes.
Proof.
  intros Hfuel. split_and!.
  - reflexivity.
  - unfold visit_test, pbind.
    destruct (visit_test_rounds junk fuel sizes d Hfuel)
      as (rows & d' & -> & Hd').
    by eexists _, _.
  - apply Forall_forall. intros N HN.
    assert (0 ≤ N < 2 ^ 64) as HN'.
    { unfold sizes in HN.
      repeat (apply elem_of_cons in HN as [->|HN]; [lia|]).
      by apply elem_of_nil in HN. }
    split; [|by apply dataset_contents].
    unfold dataset, to_size_t. rewrite Z.mod_small by done.
    apply dataset_history.
Qed.

(** X10. On a clock that advances between any two readings, and with
    more rounds allowed to a trial than the clock needs readings to
    advance by 200 ms, [main] returns: it has written the title, the
    header naming the strategies "regular" and "bulk", and then one line
    for each of the sizes 3000, 25000, 600000 and 10000000, in that
    order, and nothing else. *)
Theorem main_writes_one_line_per_size junk fuel st :
  (readings_for_min_time ticks_per_second < fuel)%nat →
  ∃ rows st',
    main clock ticks_per_second junk fuel st
    = Some (Title :: Header "regular" "bulk" :: rows, st')
    ∧ line_size <$> rows
      = [Some 3000; Some 25000; Some 600000; Some 10000000].
Proof.
  intros Hfuel. unfold main, visit_test, pbind.
  destruct (for_each_returns
              (visit_test_size clock ticks_per_second
                 regular_visitor.visitor (bulk_visitor.visitor junk) fuel)
              (λ N l, line_size l = Some N) sizes st)
    as (rows & st' & -> & Hrows).
  { intros N s. destruct (visit_test_size_returns junk fuel N s Hfuel)
      as (l & s' & Hl & (t1 & t2 & ->) & _). by exists (Row N t1 t2), s'. }
  exists rows, st'. split; [done|].
  unfold sizes in Hrows.
  repeat match goal with
         | H : Forall2 _ (_ :: _) _ |- _ =>
             apply Forall2_cons_inv_l in H as (? & ? & ? & H & ->)
         | H : Forall2 _ [] _ |- _ => apply Forall2_nil_inv_l in H as ->
         end.
  cbn [fmap list_fmap]. congruence.
Qed.
End WholeDriver.

(** ** The further properties at concrete inputs *)

(** A clock with a millisecond tick that advances by one tick at each
    reading. *)
Definition millisecond_clock (n : nat) : Z := Z.of_nat n.

Definition milliseconds : Z := 1000.

Lemma millisecond_clock_increasing : strictly_increasing millisecond_clock.
Proof. intros n. unfold millisecond_clock. lia. Qed.

Lemma idle_alone : leaves_timer_alone idle.
Proof. intros s. by exists tt. Qed.

Lemma measure_returns_after_ten_trials_witness :
  ∃ trs st',
    successive_trials millisecond_clock milliseconds idle 201 (Timer 0 0 0) trs st'
    ∧ length trs = 10%nat
    ∧ measure millisecond_clock milliseconds idle 201 (Timer 0 0 0)
      = Some (trimmed_mean (average <$> trs), st')
    ∧ Forall (λ tr,
        1 ≤ runs tr
        ∧ min_time_per_trial * milliseconds ≤ elapsed tr * 1000
        ∧ average tr
          = (double_of_Z (elapsed tr) / double_of_Z milliseconds
             / double_of_Z (runs tr))%float) trs
    ∧ Z.of_nat (reads st') = Z.of_nat (reads (Timer 0 0 0)) + 10 + sumZ (runs <$> trs)
    ∧ measure_pause st' = measure_pause (Timer 0 0 0).
Proof.
  apply (measure_returns_after_ten_trials millisecond_clock milliseconds idle
           idle_alone 201 (Timer 0 0 0) millisecond_clock_increasing).
  - vm_compute. lia.
  - unfold int_max. lia.
Defined.


Lemma batched_keys_accounted_witness :
  ∃ v' w',
    apply_ops (G := Z) (bulk_visitor.visitor [])
      (replicate 20 OpCall ++ [OpFlush; OpCall; OpCall])
      (bulk_visitor.make [] (dataset 10) (uniform_int_distribution 0 19))
      (World (splitmix64_urng seed) [] []) = Some (v', w')
    ∧ visited (calls w') ++ pending v' = drawn w'
    ∧ length (drawn w')
      = count_calls (replicate 20 OpCall ++ [OpFlush; OpCall; OpCall])
    ∧ Forall (λ c, (length (call_keys c)
                    ≤ bulk_visitor.N (M := concurrent_flat_map.t))%nat) (calls w').
Proof.
  apply (batched_keys_accounted (G := Z) [] (dataset 10)
           (uniform_int_distribution 0 19)).
  change (0 < 16)%nat. lia.
Defined.

Lemma uninitialised_keys_never_read_witness :
  is_Some (visit_tester_run (G := Z) (bulk_visitor.visitor [7; 7; 7]) (dataset 100) 100)
  ∧ visit_tester_run (G := Z) (bulk_visitor.visitor [7; 7; 7]) (dataset 100) 100
    = visit_tester_run (G := Z) (bulk_visitor.visitor []) (dataset 100) 100.
Proof.
  apply (uninitialised_keys_never_read (G := Z) [7; 7; 7] [] (dataset 100) 100).
  change (0 < 16)%nat. lia.
Defined.

Lemma hits_on_dataset_witness :
  visit_tester (G := Z) regular_visitor.visitor (dataset 100) 100
  = Some (hits_below 100 (key_sequence 100))
  ∧ visit_tester (G := Z) (bulk_visitor.visitor []) (dataset 100) 100
    = Some (hits_below 100 (key_sequence 100))
  ∧ 0 ≤ hits_below 100 (key_sequence (G := Z) 100) ≤ 100.
Proof.
  apply (hits_on_dataset (G := Z) [] 100).
  - apply downscaling_draw_range.
  - lia.
Defined.

Lemma half_of_range_present_witness :
  sumZ (visit (dataset 100) <$> seqZ 0 (2 * 100 - 1 + 1)) = 100.
Proof. apply (half_of_range_present 100). lia. Defined.

Lemma trimmed_mean_order_independent_witness :
  trimmed_mean [0.25; 0.125; 0.5; 0.75; 1; 2; 1.5; 3; 0.375; 4]%float
  = trimmed_mean (reverse [0.25; 0.125; 0.5; 0.75; 1; 2; 1.5; 3; 0.375; 4]%float).
Proof.
  apply trimmed_mean_order_independent.
  - repeat constructor.
  - symmetry. apply reverse_Permutation.
Defined.

Lemma main_writes_one_line_per_size_witness :
  ∃ rows st',
    main (G := Z) millisecond_clock milliseconds [] 201 (Driver (Timer 0 0 0) [])
    = Some (Title :: Header "regular" "bulk" :: rows, st')
    ∧ line_size <$> rows
      = [Some 3000; Some 25000; Some 600000; Some 10000000].
Proof.
  apply (main_writes_one_line_per_size (G := Z) millisecond_clock milliseconds
           millisecond_clock_increasing [] 201 (Driver (Timer 0 0 0) [])).
  vm_compute. lia.
Defined.

Lemma datasets_built_before_timing_witness :
  sizes = [3000; 25000; 600000; 10000000]
  ∧ (∃ out d',
       visit_test (G := Z) millisecond_clock milliseconds
         regular_visitor.visitor (bulk_visitor.visitor []) 201
         "regular" "bulk" (Driver (Timer 0 0 0) [])
       = Some (out, d')
       ∧ events d'
         = events (Driver (Timer 0 0 0) [])
           ++ concat ((λ N, [Timed 1 (dataset N) N; Timed 2 (dataset N) N])
                      <$> sizes))
  ∧ Forall (λ N,
      concurrent_flat_map.history (dataset N)
      = concurrent_flat_map.Reserved N
        :: ((λ i, concurrent_flat_map.Inserted i i) <$> seqZ 0 N)
      ∧ concurrent_flat_map.reserved
          (concurrent_flat_map.reserve (to_size_t N) concurrent_flat_map.empty) = N
      ∧ (∀ k, concurrent_flat_map.table (dataset N) !! k
              = if decide (0 ≤ k < N) then Some k else None)
      ∧ Z.of_nat (size (concurrent_flat_map.table (dataset N))) = N
      ∧ concurrent_flat_map.reserved (dataset N) = N) sizes.
Proof.
  apply (datasets_built_before_timing (G := Z) millisecond_clock milliseconds
           millisecond_clock_increasing [] 201 "regular" "bulk"
           (Driver (Timer 0 0 0) [])).
  vm_compute. lia.
Defined.
